(** * LearningGame: the letter-learning task engine

    A shallow embedding of [components/LearningGame.tsx] and [storage.ts]:
    the grid of placed tiles, the resolution of a drag gesture, the row
    scanner [checkGridForWord], the task sequence with its success
    choreography, the star rating and the progress store.

    React state is a record ([GameState]); an event handler reads the values
    of the render it was created in (its snapshot) and queues updates, which
    are modelled as functions on a [World] composed left to right.  Calls to
    the audio module, pending [setTimeout] callbacks and [localStorage] are
    part of the [World]. *)

From stdpp Require Import gmap list strings pretty.
From Stdlib Require Import NArith.

Local Open Scope nat_scope.

(** ** JavaScript strings

    A JS string is a sequence of UTF-16 code units; [length], indexing and
    [===] all work on code units. *)

Abbreviation jsstring := (list N).

(** Code units of an ASCII literal of the source. *)
Fixpoint lit (s : string) : jsstring :=
  match s with
  | EmptyString => []
  | String a r => Ascii.N_of_ascii a :: lit r
  end.

Arguments lit s%_string : simpl never.

Definition DASH : N := 45.
Definition BLANK : N := 32.

(** [s.replace(/-/g, '')] *)
Definition removeDashes (s : jsstring) : jsstring :=
  filter (λ u, u ≠ DASH) s.

(** [s.startsWith(p)] *)
Fixpoint startsWith (p s : jsstring) : bool :=
  match p, s with
  | [], _ => true
  | _ :: _, [] => false
  | a :: p', b :: s' => bool_decide (a = b) && startsWith p' s'
  end.

(** [w] occurs in [s] as a contiguous substring. *)
Definition substring_of (w s : jsstring) : Prop :=
  ∃ pre post, s = pre ++ w ++ post.

(** ** Data model ([types.ts] is not part of the sources; the records list
    the fields the component reads and writes) *)

(** A placed tile: [{ char, id }]. *)
Record GridItem := mkGridItem {
  item_char : jsstring;
  item_id : jsstring
}.

#[global] Instance GridItem_eq_dec : EqDecision GridItem.
Proof. solve_decision. Defined.

(** [GridState]: a JS object from cell index to tile; a missing key is an
    empty cell. *)
Abbreviation GridState := (gmap nat GridItem).

Inductive Origin := OriginGrid | OriginKeyboard.

#[global] Instance Origin_eq_dec : EqDecision Origin.
Proof. solve_decision. Defined.

(** [DragData]: [{ origin, char, id?, index? }]. *)
Record DragData := mkDragData {
  drag_origin : Origin;
  drag_char : jsstring;
  drag_id : option jsstring;
  drag_index : option nat
}.

(** The [over] droppable of a drag end: its [id] and
    [over.data.current?.index]. *)
Record Over := mkOver {
  over_id : jsstring;
  over_index : option nat
}.

Inductive TaskType := Syllable | Word.

#[global] Instance TaskType_eq_dec : EqDecision TaskType.
Proof. solve_decision. Defined.

Record Task := mkTask {
  text : jsstring;
  type : TaskType
}.

#[global] Instance Task_eq_dec : EqDecision Task.
Proof. solve_decision. Defined.

(** ** The match detector *)

Section Detector.

(** [GRID_ROWS] and [GRID_COLS] come from [constants.ts], which is not part
    of the sources; [String.prototype.toLowerCase] is the runtime's. *)
Variables GRID_ROWS GRID_COLS : nat.
Variable toLowerCase : jsstring → jsstring.

(** [cleanTarget] of [checkGridForWord]. *)
Definition cleanTarget (targetWord : jsstring) : jsstring :=
  toLowerCase (removeDashes targetWord).

(** The inner loop over [c]: the array [rowChars] of row [r]. *)
Definition rowChars (state : GridState) (r : nat) : list jsstring :=
  map (λ c,
         match state !! (r * GRID_COLS + c) with
         | Some item => toLowerCase (item_char item)
         | None => [BLANK]
         end)
      (seq 0 GRID_COLS).

(** [rowChars.join('')] *)
Definition rowString (state : GridState) (r : nat) : jsstring :=
  concat (rowChars state r).

(** The loop over [j]: [rowChars[i+j] !== cleanTarget[j]] compares a cell
    with the one-unit string at position [j] of the target. *)
Definition matchAt (cells : list jsstring) (target : jsstring) (i : nat) : bool :=
  forallb (λ j, bool_decide (cells !! (i + j) = (λ u, [u]) <$> target !! j))
          (seq 0 (length target)).

(** The loop [for (i = 0; i <= rowChars.length - cleanTarget.length; i++)];
    it has no iteration when the target is longer than the row. *)
Definition scanRow (cells : list jsstring) (target : jsstring) : bool :=
  if decide (length target ≤ length cells)
  then existsb (matchAt cells target) (seq 0 (length cells - length target + 1))
  else false.

Definition checkGridForWord (state : GridState) (targetWord : jsstring) : bool :=
  existsb (λ r, scanRow (rowChars state r) (cleanTarget targetWord))
          (seq 0 GRID_ROWS).

(** Every placed tile shows a single code unit once lowercased. *)
Definition single_unit_tiles (state : GridState) : Prop :=
  ∀ k item, state !! k = Some item → length (toLowerCase (item_char item)) = 1.

End Detector.

(** ** The progress store ([storage.ts]) *)

(** [UserProgress]: letter to star count. *)
Abbreviation UserProgress := (gmap (list N) nat).

(** What [localStorage] holds under [STORAGE_KEY]: the text written by
    [JSON.stringify] for a progress object, which [JSON.parse] reads back as
    the same object, or text that [JSON.parse] rejects. *)
Inductive StoredItem :=
| Serialized (p : UserProgress)
| Unparsable.

(** [localStorage.getItem(STORAGE_KEY)]: [None] is JS [null]. *)
Abbreviation Storage := (option StoredItem).

Definition loadProgress (ls : Storage) : UserProgress :=
  match ls with
  | Some (Serialized p) => p
  | Some Unparsable => ∅
  | None => ∅
  end.

Definition saveLetterScore (letter : jsstring) (stars : nat) (ls : Storage) : Storage :=
  let current := loadProgress ls in
  Some (Serialized (<[letter := stars]> current)).

Definition resetProgress (ls : Storage) : Storage := None.

(** ** Component state *)

Record GameState := mkGameState {
  gridState : GridState;
  activeDragData : option DragData;
  dragSize : option (N * N);
  tasks : list Task;
  currentTaskIndex : nat;
  moveCount : nat;
  failedStepsCount : nat;
  completedSteps : list bool;
  isProcessingSuccess : bool;
  gameFinished : bool;
  finalStars : nat
}.

(** The [useState] initial values. *)
Definition initialGameState : GameState :=
  {| gridState := ∅; activeDragData := None; dragSize := None;
     tasks := []; currentTaskIndex := 0; moveCount := 0;
     failedStepsCount := 0; completedSteps := replicate 6 false;
     isProcessingSuccess := false; gameFinished := false; finalStars := 0 |}.

Inductive Sound := Grab | Drop | Rustle | Success | Fanfare.

(** Calls into the audio module and the console, in the order made. *)
Inductive Effect :=
| InitVoices
| PlaySound (s : Sound)
| SpeakText (t : jsstring)
| SpeechCancel
| ConsoleError.

(** The variables a [handleTaskSuccess] timer closes over: they keep the
    values of the render in which the drag ended. *)
Record SuccessClosure := mkSuccessClosure {
  cl_tasks : list Task;
  cl_currentTaskIndex : nat;
  cl_failedStepsCount : nat;
  cl_isFailedStep : bool
}.

(** The three [setTimeout] callbacks of the component. *)
Inductive Callback :=
| AnnounceFirst (task : option Task)
| AfterSpeak (c : SuccessClosure)
| AfterSound (c : SuccessClosure).

Record World := mkWorld {
  game : GameState;
  localStorage : Storage;
  timers : list (nat * Callback);
  calls : list Effect
}.

Definition initialWorld (ls : Storage) : World :=
  {| game := initialGameState; localStorage := ls; timers := []; calls := [] |}.

(** A handler body is a sequence of state updates and calls. *)
Definition Action := World → World.

Definition skip : Action := λ w, w.

Definition andThen (a b : Action) : Action := λ w, b (a w).

Infix ">>>" := andThen (at level 61, left associativity).

Definition updGame (f : GameState → GameState) : Action := λ w,
  {| game := f (game w); localStorage := localStorage w;
     timers := timers w; calls := calls w |}.

Definition call (e : Effect) : Action := λ w,
  {| game := game w; localStorage := localStorage w;
     timers := timers w; calls := calls w ++ [e] |}.

Definition setTimeout (cb : Callback) (ms : nat) : Action := λ w,
  {| game := game w; localStorage := localStorage w;
     timers := timers w ++ [(ms, cb)]; calls := calls w |}.

Definition updStorage (f : Storage → Storage) : Action := λ w,
  {| game := game w; localStorage := f (localStorage w);
     timers := timers w; calls := calls w |}.

(** The state setters. *)
Definition setGridState (v : GridState) : Action := updGame (λ s,
  mkGameState v (activeDragData s) (dragSize s) (tasks s) (currentTaskIndex s)
    (moveCount s) (failedStepsCount s) (completedSteps s)
    (isProcessingSuccess s) (gameFinished s) (finalStars s)).

Definition setActiveDragData (v : option DragData) : Action := updGame (λ s,
  mkGameState (gridState s) v (dragSize s) (tasks s) (currentTaskIndex s)
    (moveCount s) (failedStepsCount s) (completedSteps s)
    (isProcessingSuccess s) (gameFinished s) (finalStars s)).

Definition setDragSize (v : option (N * N)) : Action := updGame (λ s,
  mkGameState (gridState s) (activeDragData s) v (tasks s) (currentTaskIndex s)
    (moveCount s) (failedStepsCount s) (completedSteps s)
    (isProcessingSuccess s) (gameFinished s) (finalStars s)).

Definition setTasks (v : list Task) : Action := updGame (λ s,
  mkGameState (gridState s) (activeDragData s) (dragSize s) v (currentTaskIndex s)
    (moveCount s) (failedStepsCount s) (completedSteps s)
    (isProcessingSuccess s) (gameFinished s) (finalStars s)).

Definition setCurrentTaskIndex (v : nat) : Action := updGame (λ s,
  mkGameState (gridState s) (activeDragData s) (dragSize s) (tasks s) v
    (moveCount s) (failedStepsCount s) (completedSteps s)
    (isProcessingSuccess s) (gameFinished s) (finalStars s)).

Definition setMoveCount (v : nat) : Action := updGame (λ s,
  mkGameState (gridState s) (activeDragData s) (dragSize s) (tasks s)
    (currentTaskIndex s) v (failedStepsCount s) (completedSteps s)
    (isProcessingSuccess s) (gameFinished s) (finalStars s)).

(** [setFailedStepsCount(prev => f(prev))] *)
Definition setFailedStepsCount (f : nat → nat) : Action := updGame (λ s,
  mkGameState (gridState s) (activeDragData s) (dragSize s) (tasks s)
    (currentTaskIndex s) (moveCount s) (f (failedStepsCount s)) (completedSteps s)
    (isProcessingSuccess s) (gameFinished s) (finalStars s)).

(** [setCompletedSteps(prev => f(prev))] *)
Definition setCompletedSteps (f : list bool → list bool) : Action := updGame (λ s,
  mkGameState (gridState s) (activeDragData s) (dragSize s) (tasks s)
    (currentTaskIndex s) (moveCount s) (failedStepsCount s) (f (completedSteps s))
    (isProcessingSuccess s) (gameFinished s) (finalStars s)).

Definition setIsProcessingSuccess (v : bool) : Action := updGame (λ s,
  mkGameState (gridState s) (activeDragData s) (dragSize s) (tasks s)
    (currentTaskIndex s) (moveCount s) (failedStepsCount s) (completedSteps s)
    v (gameFinished s) (finalStars s)).

Definition setGameFinished (v : bool) : Action := updGame (λ s,
  mkGameState (gridState s) (activeDragData s) (dragSize s) (tasks s)
    (currentTaskIndex s) (moveCount s) (failedStepsCount s) (completedSteps s)
    (isProcessingSuccess s) v (finalStars s)).

Definition setFinalStars (v : nat) : Action := updGame (λ s,
  mkGameState (gridState s) (activeDragData s) (dragSize s) (tasks s)
    (currentTaskIndex s) (moveCount s) (failedStepsCount s) (completedSteps s)
    (isProcessingSuccess s) (gameFinished s) v).

(** [playSound(kind)] and [speakText(t)] of the audio module. *)
Definition playSound (s : Sound) : Action := call (PlaySound s).
Definition speakText (t : jsstring) : Action := call (SpeakText t).

(** [next[i] = v] on a copy of a JS array: an index past the end extends the
    array (the skipped positions, holes in JS, are shown as [false]). *)
Definition arraySet (i : nat) (v : bool) (l : list bool) : list bool :=
  if decide (i < length l) then <[i := v]> l
  else l ++ replicate (i - length l) false ++ [v].

(** ** The component's handlers *)

(** [Date.now()] and [Math.random()] as the template literals print them. *)
Record Env := mkEnv {
  date_now : jsstring;
  math_random : jsstring
}.

(** [a || b] on an optional string: [undefined] and [''] are falsy. *)
Definition orElse (a : option jsstring) (b : jsstring) : jsstring :=
  match a with
  | Some (u :: r) => u :: r
  | Some [] => b
  | None => b
  end.

(** [`placed-${char}-${Date.now()}-${Math.random()}`] *)
Definition newId (char : jsstring) (env : Env) : jsstring :=
  lit "placed-" ++ char ++ lit "-" ++ date_now env ++ lit "-" ++ math_random env.

(** [`item-${Date.now()}`] *)
Definition itemId (env : Env) : jsstring := lit "item-" ++ date_now env.

(** The block "Handle Drop Logic" of [handleDragEnd], reached with a
    non-null [over]: the pair [(nextState, didChange)] it leaves. *)
Definition dropLogic (gridState : GridState) (data : DragData) (over : Over)
    (env : Env) : GridState * bool :=
  let nextState := gridState in
  if bool_decide (drag_origin data = OriginGrid)
     && bool_decide (over_id over = lit "keyboard-area")
  then
    (match drag_index data with
     | Some index => delete index nextState
     | None => nextState
     end, true)
  else if startsWith (lit "cell-") (over_id over) then
    match over_index over with
    | Some targetIndex =>
        let existingItem := nextState !! targetIndex in
        match drag_origin data, drag_index data with
        | OriginGrid, Some index =>
            if bool_decide (index ≠ targetIndex) then
              let nextState := delete index nextState in
              let nextState :=
                match existingItem with
                | Some e => <[index := e]> nextState
                | None => nextState
                end in
              (<[targetIndex := mkGridItem (drag_char data)
                                  (orElse (drag_id data) (itemId env))]> nextState,
               true)
            else (nextState, false)
        | OriginGrid, None => (nextState, false)
        | OriginKeyboard, _ =>
            (<[targetIndex := mkGridItem (drag_char data)
                                (newId (drag_char data) env)]> nextState,
             true)
        end
    | None => (nextState, false)
    end
  else (nextState, false).

(** The star thresholds of [finishGame]. *)
Definition stars (finalFailedCount : nat) : nat :=
  if decide (6 ≤ finalFailedCount) then 0
  else if decide (4 ≤ finalFailedCount) then 1
  else if decide (2 ≤ finalFailedCount) then 2
  else 3.

(** "Напиши слог " and "Напиши слово " *)
Definition NAPISHI_SLOG : jsstring :=
  [0x41D; 0x430; 0x43F; 0x438; 0x448; 0x438; 0x20;
   0x441; 0x43B; 0x43E; 0x433; 0x20]%N.
Definition NAPISHI_SLOVO : jsstring :=
  [0x41D; 0x430; 0x43F; 0x438; 0x448; 0x438; 0x20;
   0x441; 0x43B; 0x43E; 0x432; 0x43E; 0x20]%N.

(** [if (!task) return;] then the prompt: the syllable prompt keeps the
    dashes of [task.text], the word prompt drops them. *)
Definition announceTask (task : option Task) : Action :=
  match task with
  | None => skip
  | Some task =>
      let cleanText := removeDashes (text task) in
      let prompt :=
        match type task with
        | Syllable => NAPISHI_SLOG ++ text task
        | Word => NAPISHI_SLOVO ++ cleanText
        end in
      speakText prompt
  end.

(** [LEARNING_DATA[letter]] *)
Record LetterData := mkLetterData {
  syllables : list jsstring;
  words : list jsstring
}.

Section Game.

Variables GRID_ROWS GRID_COLS : nat.
Variable toLowerCase : jsstring → jsstring.
(** [learningData.ts] is not part of the sources. *)
Variable LEARNING_DATA : jsstring → option LetterData.
(** The [letter] prop of the component. *)
Variable letter : jsstring.

(** The initialisation effect.  [shuffle] sorts a copy of its argument
    with a comparator that ignores its operands, so its result is some
    rearrangement of the array chosen by the runtime; [shuffledSyllables]
    and [shuffledWords] are the two results. *)
Definition initEffect (shuffledSyllables shuffledWords : list jsstring) : Action :=
  call InitVoices >>>
  match LEARNING_DATA letter with
  | None => call ConsoleError
  | Some data =>
      let syllables := map (λ t, mkTask t Syllable) (take 3 shuffledSyllables) in
      let words := map (λ t, mkTask t Word) (take 3 shuffledWords) in
      let gameTasks := syllables ++ words in
      setTasks gameTasks >>>
      setTimeout (AnnounceFirst (gameTasks !! 0)) 800
  end.

(** What [shuffle(array)] may return. *)
Definition shuffle_result (array result : list jsstring) : Prop :=
  array ≡ₚ result.

Definition handleDragStart (s : GameState) (data : DragData)
    (rect : option (N * N)) : Action :=
  if gameFinished s || isProcessingSuccess s then skip
  else
    call SpeechCancel >>>
    setActiveDragData (Some data) >>>
    (match rect with
     | Some r => setDragSize (Some r)
     | None => skip
     end) >>>
    (if bool_decide (drag_origin data = OriginGrid)
     then playSound Rustle else playSound Grab).

Definition finishGame (finalFailedCount : nat) : Action :=
  let stars := stars finalFailedCount in
  setFinalStars stars >>>
  setGameFinished true >>>
  updStorage (saveLetterScore letter stars) >>>
  playSound Fanfare.

(** [s] is the render whose [handleDragEnd] called it: [moveCount s] is
    the count before the move that completed the word. *)
Definition handleTaskSuccess (s : GameState) (task : Task) : Action :=
  setIsProcessingSuccess true >>>
  let cleanText := removeDashes (text task) in
  let limit := length cleanText + 3 in
  let isFailedStep := bool_decide (limit < moveCount s) in
  (if isFailedStep then setFailedStepsCount (λ prev, prev + 1) else skip) >>>
  speakText cleanText >>>
  setTimeout (AfterSpeak (mkSuccessClosure (tasks s) (currentTaskIndex s)
                            (failedStepsCount s) isFailedStep)) 1000.

(** The callback run 1000 ms after the word was spoken. *)
Definition afterSpeak (c : SuccessClosure) : Action :=
  playSound Success >>>
  setCompletedSteps (arraySet (cl_currentTaskIndex c) true) >>>
  setTimeout (AfterSound c) 2000.

(** The callback run 2000 ms after the success sound. *)
Definition afterSound (c : SuccessClosure) : Action :=
  let nextIndex := cl_currentTaskIndex c + 1 in
  if decide (length (cl_tasks c) ≤ nextIndex) then
    finishGame (if cl_isFailedStep c then cl_failedStepsCount c + 1
                else cl_failedStepsCount c)
  else
    setGridState ∅ >>>
    setMoveCount 0 >>>
    setCurrentTaskIndex nextIndex >>>
    setIsProcessingSuccess false >>>
    announceTask (cl_tasks c !! nextIndex).

Definition handleDragEnd (s : GameState) (data : DragData)
    (over : option Over) (env : Env) : Action :=
  if gameFinished s || isProcessingSuccess s then setActiveDragData None
  else
    setActiveDragData None >>>
    setDragSize None >>>
    playSound Drop >>>
    match over with
    | None => skip
    | Some over =>
        let '(nextState, didChange) := dropLogic (gridState s) data over env in
        if didChange then
          setGridState nextState >>>
          let newMoveCount := moveCount s + 1 in
          setMoveCount newMoveCount >>>
          match tasks s !! currentTaskIndex s with
          | Some currentTask =>
              if checkGridForWord GRID_ROWS GRID_COLS toLowerCase
                   nextState (text currentTask)
              then handleTaskSuccess s currentTask
              else speakText (drag_char data)
          | None => speakText (drag_char data)
          end
        else skip
    end.

(** The "Повторить" button is part of the game screen, which is rendered
    unless [gameFinished]; its [onClick] has no other condition. *)
Definition reannounceRendered (s : GameState) : bool := negb (gameFinished s).

Definition onReannounceClick (s : GameState) : Action :=
  announceTask (tasks s !! currentTaskIndex s).

(** *** Events *)

Inductive Event :=
| Mount (shuffledSyllables shuffledWords : list jsstring)
| DragStart (data : DragData) (rect : option (N * N))
| DragEnd (data : DragData) (over : option Over) (env : Env)
| TimerFires
| ClickReannounce.

Definition runCallback (cb : Callback) : Action :=
  match cb with
  | AnnounceFirst task => announceTask task
  | AfterSpeak c => afterSpeak c
  | AfterSound c => afterSound c
  end.

(** The oldest pending timer fires. *)
Definition fireTimer : Action := λ w,
  match timers w with
  | [] => w
  | (_, cb) :: rest =>
      runCallback cb
        {| game := game w; localStorage := localStorage w;
           timers := rest; calls := calls w |}
  end.

(** Each handler runs against the current render. *)
Definition dispatch (w : World) (e : Event) : World :=
  match e with
  | Mount sy wo => initEffect sy wo w
  | DragStart data rect => handleDragStart (game w) data rect w
  | DragEnd data over env => handleDragEnd (game w) data over env w
  | TimerFires => fireTimer w
  | ClickReannounce =>
      if reannounceRendered (game w) then onReannounceClick (game w) w else w
  end.

Definition run (w : World) (es : list Event) : World := fold_left dispatch es w.

End Game.

(** ** A concrete runtime for the worked examples *)

(** [toLowerCase] on text of Basic Latin and of the Cyrillic letters
    U+0400..U+045F, where it acts on each code unit by itself; other code
    units are left as they are. *)
Definition toLowerUnit (u : N) : N :=
  if ((0x41 <=? u) && (u <=? 0x5A))%N then (u + 0x20)%N
  else if ((0x410 <=? u) && (u <=? 0x42F))%N then (u + 0x20)%N
  else if ((0x400 <=? u) && (u <=? 0x40F))%N then (u + 0x50)%N
  else u.

Definition toLowerCase_ru (s : jsstring) : jsstring := map toLowerUnit s.

(** Cyrillic letters used below. *)
Definition cyr_a : N := 0x430.
Definition cyr_k : N := 0x43A.
Definition cyr_m : N := 0x43C.
Definition cyr_o : N := 0x43E.
Definition cyr_s : N := 0x441.
Definition CYR_A : N := 0x410.
Definition CYR_K : N := 0x41A.
Definition CYR_O : N := 0x41E.
Definition CYR_S : N := 0x421.

(** A keyboard tile carrying the letter [u]. *)
Definition key (u : N) : DragData := mkDragData OriginKeyboard [u] None None.

(** The droppable of cell [i]. *)
Definition cell (i : nat) : option Over :=
  Some (mkOver (lit "cell-") (Some i)).

(** ** Notions used in the statements *)

(** The row as the specification words it: the characters of the tiles as
    they were placed, a blank for an empty cell. *)
Definition spec_rowChars (cols : nat) (state : GridState) (r : nat) : list jsstring :=
  map (λ c,
         match state !! (r * cols + c) with
         | Some item => item_char item
         | None => [BLANK]
         end)
      (seq 0 cols).

(** The detector as the specification words it: some such row contains the
    normalised target. *)
Definition spec_matches (rows cols : nat) (toLowerCase : jsstring → jsstring)
    (state : GridState) (targetText : jsstring) : Prop :=
  ∃ r, r < rows ∧
       substring_of (cleanTarget toLowerCase targetText)
                    (concat (spec_rowChars cols state r)).

(** The session takes input: no success choreography is running and the
    game is not finished. *)
Definition awaitingInput (s : GameState) : bool :=
  negb (gameFinished s || isProcessingSuccess s).

(** Each tile id occupies at most one cell. *)
Definition unique_ids (g : GridState) : Prop :=
  ∀ i j a b, g !! i = Some a → g !! j = Some b → item_id a = item_id b → i = j.

(** [o] is the droppable of cell [j]. *)
Definition is_cell (o : Over) (j : nat) : Prop :=
  startsWith (lit "cell-") (over_id o) = true ∧ over_index o = Some j.

(** [data] is the payload of the tile [A] that lies in cell [i] of [g], as
    [DraggableItem] receives it from the grid ([origin="grid"], the tile's
    [char] and [id], the cell's [index]); a tile id is never empty. *)
Definition payload_of (g : GridState) (i : nat) (A : GridItem) (data : DragData) : Prop :=
  g !! i = Some A ∧ item_id A ≠ [] ∧
  data = mkDragData OriginGrid (item_char A) (Some (item_id A)) (Some i).

(** No tile of [g] has the id [x]. *)
Definition fresh_id (g : GridState) (x : jsstring) : Prop :=
  ∀ k t, g !! k = Some t → item_id t ≠ x.

(** A gesture as the grid and the keyboard produce it: a grid tile is dragged
    with its own payload, and the id made for a keyboard tile is new. *)
Definition well_formed_drag (g : GridState) (data : DragData) (env : Env) : Prop :=
  match drag_origin data with
  | OriginGrid => ∃ i A, payload_of g i A data
  | OriginKeyboard => fresh_id g (newId (drag_char data) env)
  end.

(** Cell [k] after the contents of cells [i] and [j] changed places. *)
Definition transpose (i j k : nat) : nat :=
  if decide (k = i) then j else if decide (k = j) then i else k.

(** The grid state that a drag end hands to [setGridState], when it does:
    the session takes input, there is a drop target, and the drop logic
    raised [didChange]. *)
Definition commits (s : GameState) (data : DragData) (over : option Over)
    (env : Env) : option GridState :=
  if awaitingInput s then
    match over with
    | Some o =>
        let '(nextState, didChange) := dropLogic (gridState s) data o env in
        if didChange then Some nextState else None
    | None => None
    end
  else None.

(** The step is failed when the move count read by [handleTaskSuccess]
    exceeds the length of the clean target by more than three. *)
Definition isFailedStep (s : GameState) (t : Task) : bool :=
  bool_decide (length (removeDashes (text t)) + 3 < moveCount s).

(** The count [finishGame] receives from the last timer. *)
Definition finalFailedCount (c : SuccessClosure) : nat :=
  if cl_isFailedStep c then cl_failedStepsCount c + 1 else cl_failedStepsCount c.

Section Verdict.

Variables GRID_ROWS GRID_COLS : nat.
Variable toLowerCase : jsstring → jsstring.

(** [currentTask && checkGridForWord(nextState, currentTask.text)]: without a
    current task the scan is skipped and the drop counts as no match. *)
Definition currentTaskMatches (s : GameState) (nextState : GridState) : bool :=
  match tasks s !! currentTaskIndex s with
  | Some currentTask =>
      checkGridForWord GRID_ROWS GRID_COLS toLowerCase nextState (text currentTask)
  | None => false
  end.

End Verdict.

(** ** Worked examples: grids of 3 rows of 5 cells and a session for "А" *)

(** Rows of five cells: "с","о","к" in the first three cells of row 0. *)
Definition grid_sok : GridState :=
  <[0 := mkGridItem [cyr_s] (lit "t1")]>
  (<[1 := mkGridItem [cyr_o] (lit "t2")]>
  (<[2 := mkGridItem [cyr_k] (lit "t3")]> ∅)).

(** The same word on capital tiles. *)
Definition grid_SOK : GridState :=
  <[0 := mkGridItem [CYR_S] (lit "t1")]>
  (<[1 := mkGridItem [CYR_O] (lit "t2")]>
  (<[2 := mkGridItem [CYR_K] (lit "t3")]> ∅)).

(** "с" in the last cell of row 0, "о","к" in the first cells of row 1. *)
Definition grid_wrapped : GridState :=
  <[4 := mkGridItem [cyr_s] (lit "t1")]>
  (<[5 := mkGridItem [cyr_o] (lit "t2")]>
  (<[6 := mkGridItem [cyr_k] (lit "t3")]> ∅)).

Definition letter_A : jsstring := [CYR_A].

(** Syllables "а-м", "м-а", "а-с" and words "сам", "мак", "оса". *)
Definition data_A : LetterData :=
  mkLetterData
    [[cyr_a; DASH; cyr_m]; [cyr_m; DASH; cyr_a]; [cyr_a; DASH; cyr_s]]
    [[cyr_s; cyr_a; cyr_m]; [cyr_m; cyr_a; cyr_k]; [cyr_o; cyr_s; cyr_a]].

Definition LEARNING_DATA_A (l : jsstring) : option LetterData :=
  if bool_decide (l = letter_A) then Some data_A else None.

Definition play : World → list Event → World :=
  run 3 5 toLowerCase_ru LEARNING_DATA_A letter_A.

(** The [n]-th reading of the clock. *)
Definition clock (n : nat) : Env :=
  mkEnv (lit (pretty (1700000000000 + N.of_nat n)%N)) (lit "0.5").

(** Dropping the keyboard tile [u] on cell [i] at clock reading [n]. *)
Definition put (u : N) (i n : nat) : Event := DragEnd (key u) (cell i) (clock n).

(** The session starts with the candidates in the order of the table, and
    the first prompt is spoken. *)
Definition started (ls : Storage) : World :=
  play (initialWorld ls) [Mount (syllables data_A) (words data_A); TimerFires].

(** [k] tiles "к" dropped one after the other on the first cell of the last
    row. *)
Definition stray (k n : nat) : list Event :=
  map (λ j, put cyr_k 10 (n + j)) (seq 0 k).

(** The letters [us] dropped on the first cells of the first row. *)
Definition spell (us : jsstring) (n : nat) : list Event :=
  imap (λ j u, put u j (n + j)) us.

(** The first syllable "а-м" has just been spelled: the choreography runs. *)
Definition w_locked : World := play (started None) (spell [cyr_a; cyr_m] 0).

(** Tiles "к" and "о" lie in cells 0 and 1. *)
Definition w_two_tiles : World :=
  play (started None) [put cyr_k 0 0; put cyr_o 1 1].

Definition tile_k : GridItem := mkGridItem [cyr_k] (newId [cyr_k] (clock 0)).
Definition tile_o : GridItem := mkGridItem [cyr_o] (newId [cyr_o] (clock 1)).

(** Five stray tiles, then the target spelled in the first row, then the
    two timers of the choreography: the word is completed on move
    [5 + length target]. *)
Definition failing_round (k : nat) (target : jsstring) : list Event :=
  stray 5 (10 * k) ++ spell target (10 * k + 5) ++ [TimerFires; TimerFires].

Definition five_failed_rounds : list Event :=
  failing_round 0 [cyr_a; cyr_m] ++ failing_round 1 [cyr_m; cyr_a]
  ++ failing_round 2 [cyr_a; cyr_s] ++ failing_round 3 [cyr_s; cyr_a; cyr_m]
  ++ failing_round 4 [cyr_m; cyr_a; cyr_k].

Definition six_failed_rounds : list Event :=
  five_failed_rounds ++ failing_round 5 [cyr_o; cyr_s; cyr_a].

(** Three stars recorded for "А" and two for "О". *)
Definition earlier_progress : Storage :=
  Some (Serialized (<[letter_A := 3]> (<[[CYR_O] := 2]> ∅))).

(** The sixth task "оса" lacks its last letter after five stray tiles. *)
Definition w_before_last_move : World :=
  play (started earlier_progress)
       (five_failed_rounds ++ stray 5 50 ++ spell [cyr_o; cyr_s] 55).

(** ** The droppables ([DroppableCell], [KeyboardArea]) *)

(** [useDroppable({ id: `cell-${index}`, data: { index, type: 'cell' } })] *)
Definition DroppableCell (index : nat) : Over :=
  mkOver (lit "cell-" ++ lit (pretty index)) (Some index).

(** [useDroppable({ id: 'keyboard-area', data: { type: 'keyboard-area' } })] *)
Definition KeyboardArea : Over := mkOver (lit "keyboard-area") None.

(** ** What the game screen shows *)



(** The three stars of the finish screen: star [i] is filled when
    [i <= finalStars]. *)
Definition finishScreenStars (s : GameState) : list bool :=
  map (λ i, bool_decide (i ≤ finalStars s)) [1; 2; 3].

(** ** The letter overview ([components/Learning.tsx]) *)

Definition LEVEL_LETTERS : list jsstring :=
  map (λ u, [u])
    [0x410; 0x423; 0x41C; 0x421; 0x41E; 0x425; 0x420; 0x428; 0x42B; 0x41B; 0x41D;
     0x41A; 0x422; 0x418; 0x41F; 0x417; 0x419; 0x413; 0x412; 0x414; 0x411; 0x416;
     0x415; 0x42C; 0x42F; 0x42E; 0x401; 0x427; 0x42D; 0x426; 0x424; 0x429; 0x42A]%N.

Record LearningState := mkLearningState {
  progress : UserProgress;
  secretClicks : nat
}.

(** The overview with the store it reads, the audio calls it makes and the
    page reload [handleReset] schedules. *)
Record LearningWorld := mkLearningWorld {
  learning : LearningState;
  learningStorage : Storage;
  learningCalls : list Effect;
  reloadScheduled : bool
}.

(** The [useState] initial values over the store [ls]. *)
Definition initialLearningWorld (ls : Storage) : LearningWorld :=
  mkLearningWorld (mkLearningState ∅ 0) ls [] false.

(** The mount effect: [setProgress(loadProgress())]. *)
Definition learningMount (w : LearningWorld) : LearningWorld :=
  mkLearningWorld
    (mkLearningState (loadProgress (learningStorage w)) (secretClicks (learning w)))
    (learningStorage w) (learningCalls w) (reloadScheduled w).

Definition handleTitleClick (w : LearningWorld) : LearningWorld :=
  mkLearningWorld
    (mkLearningState (progress (learning w)) (secretClicks (learning w) + 1))
    (learningStorage w) (learningCalls w) (reloadScheduled w).

(** The reset button replaces its placeholder when [secretClicks >= 3]. *)
Definition resetButtonRendered (s : LearningState) : bool :=
  bool_decide (3 ≤ secretClicks s).

(** [handleReset]; [confirmed] is the answer of [window.confirm]. *)
Definition handleReset (confirmed : bool) (w : LearningWorld) : LearningWorld :=
  if confirmed then
    mkLearningWorld
      (mkLearningState ∅ (secretClicks (learning w)))
      (resetProgress (learningStorage w))
      (learningCalls w ++ [PlaySound Rustle])
      true
  else w.

(** One card of the overview: [hasPlayed] is [score !== undefined], the
    stars are filled for [displayScore >= 1], [>= 2], [>= 3] with
    [displayScore = score || 0]. *)
Record Card := mkCard {
  card_char : jsstring;
  card_hasPlayed : bool;
  card_stars : list bool
}.

Definition letterCard (progress : UserProgress) (char : jsstring) : Card :=
  let score := progress !! char in
  let hasPlayed := bool_decide (score ≠ None) in
  let displayScore := default 0 score in
  mkCard char hasPlayed
    [bool_decide (1 ≤ displayScore); bool_decide (2 ≤ displayScore);
     bool_decide (3 ≤ displayScore)].

Definition overview (s : LearningState) : list Card :=
  map (letterCard (progress s)) LEVEL_LETTERS.

(** ** The application shell ([App.tsx]) *)

Inductive AppMode := ModeMenu | ModeFreePlay | ModeLearning.

Record AppState := mkAppState {
  mode : AppMode;
  selectedLetter : option jsstring;
  appCalls : list Effect
}.

(** The [useState] initial values and the mount effect [initVoices()]. *)
Definition initialAppState : AppState := mkAppState ModeMenu None [InitVoices].

Inductive Screen :=
| ScreenMenu
| ScreenFreePlay
| ScreenLearning
| ScreenLearningGame (letter : jsstring).

(** The component's [return]s in order: [if (selectedLetter)] is false for
    [null] and for the empty string. *)
Definition appScreen (s : AppState) : Screen :=
  match selectedLetter s with
  | Some (u :: r) => ScreenLearningGame (u :: r)
  | _ =>
      match mode s with
      | ModeFreePlay => ScreenFreePlay
      | ModeLearning => ScreenLearning
      | ModeMenu => ScreenMenu
      end
  end.

(** [handleModeSelect]: [speakText(' ')] wakes the speech engine. *)
Definition handleModeSelect (newMode : AppMode) (s : AppState) : AppState :=
  mkAppState newMode (selectedLetter s) (appCalls s ++ [SpeakText [BLANK]]).

Definition handleStartLearningGame (letter : jsstring) (s : AppState) : AppState :=
  mkAppState (mode s) (Some letter) (appCalls s).

Definition handleBackToLearning (s : AppState) : AppState :=
  mkAppState (mode s) None (appCalls s).

(** [() => setMode('menu')] *)
Definition backToMenu (s : AppState) : AppState :=
  mkAppState ModeMenu (selectedLetter s) (appCalls s).

(** The callbacks a screen can invoke. *)
Inductive AppEvent :=
| ClickFreePlay
| ClickLearning
| ClickBack
| ClickLetter (letter : jsstring).

(** Each screen reaches only the handlers it was given: the menu halves
    select a mode, [FreePlay] and [Learning] get [onBack], [Learning] gets
    [onSelectLetter], [LearningGame] gets [onBack]. *)
Definition appDispatch (s : AppState) (e : AppEvent) : AppState :=
  match appScreen s, e with
  | ScreenMenu, ClickFreePlay => handleModeSelect ModeFreePlay s
  | ScreenMenu, ClickLearning => handleModeSelect ModeLearning s
  | ScreenFreePlay, ClickBack => backToMenu s
  | ScreenLearning, ClickBack => backToMenu s
  | ScreenLearning, ClickLetter letter => handleStartLearningGame letter s
  | ScreenLearningGame _, ClickBack => handleBackToLearning s
  | _, _ => s
  end.

Definition appRun (s : AppState) (es : list AppEvent) : AppState :=
  fold_left appDispatch es s.

(** ** Voices and utterances ([audio.ts]) *)

Record Voice := mkVoice {
  voice_lang : jsstring;
  voice_name : jsstring
}.

#[global] Instance Voice_eq_dec : EqDecision Voice.
Proof. solve_decision. Defined.

(** The voice [speakText] sets on the utterance:
    [voices.find(v => v.lang === 'ru-RU') || voices.find(v => v.lang.startsWith('ru'))]. *)
Definition ruVoice (voices : list Voice) : option Voice :=
  match find (λ v, bool_decide (voice_lang v = lit "ru-RU")) voices with
  | Some v => Some v
  | None => find (λ v, startsWith (lit "ru") (voice_lang v)) voices
  end.

(** The utterance handed to the synthesiser; its [rate] and [volume] are the
    constants 0.9 and 1.0. *)
Record Utterance := mkUtterance {
  utterance_text : jsstring;
  utterance_lang : jsstring;
  utterance_voice : option Voice
}.

(** Calls on [window.speechSynthesis]. *)
Inductive SynthCall :=
| SynthCancel
| SynthSpeak (u : Utterance).

(** The module variables [voices] and [currentUtterance], the calls made on
    the synthesiser and the number of [console.error] lines. *)
Record AudioState := mkAudioState {
  voices : list Voice;
  currentUtterance : option Utterance;
  synthCalls : list SynthCall;
  consoleErrors : nat
}.

Definition initialAudioState : AudioState := mkAudioState [] None [] 0.

(** [load] of [initVoices]: the cache takes the synthesiser's list [vs] when
    that list is not empty. *)
Definition loadVoices (vs : list Voice) (a : AudioState) : AudioState :=
  match vs with
  | [] => a
  | _ :: _ => mkAudioState vs (currentUtterance a) (synthCalls a) (consoleErrors a)
  end.

Section Audio.

Variable toLowerCase : jsstring → jsstring.

(** [available] tells whether [window.speechSynthesis] exists; [getVoices]
    is what [window.speechSynthesis.getVoices()] returns at the call. *)
Definition audioInitVoices (available : bool) (getVoices : list Voice)
    (a : AudioState) : AudioState :=
  if available then loadVoices getVoices a else a.

Definition audioSpeakText (available : bool) (getVoices : list Voice)
    (text : jsstring) (a : AudioState) : AudioState :=
  if available then
    let voices :=
      match voices a with
      | [] => getVoices
      | _ :: _ => voices a
      end in
    let utterance := mkUtterance (toLowerCase text) (lit "ru-RU") (ruVoice voices) in
    mkAudioState voices (Some utterance)
      (synthCalls a ++ [SynthCancel; SynthSpeak utterance]) (consoleErrors a)
  else a.

(** [utterance.onend] *)
Definition utteranceEnd (a : AudioState) : AudioState :=
  mkAudioState (voices a) None (synthCalls a) (consoleErrors a).

(** [utterance.onerror] *)
Definition utteranceError (a : AudioState) : AudioState :=
  mkAudioState (voices a) None (synthCalls a) (consoleErrors a + 1).

Inductive AudioEvent :=
| AudioInit (available : bool) (getVoices : list Voice)
| VoicesChanged (getVoices : list Voice)
| AudioSpeak (available : bool) (getVoices : list Voice) (text : jsstring)
| UtteranceEnd
| UtteranceError.

Definition audioDispatch (a : AudioState) (e : AudioEvent) : AudioState :=
  match e with
  | AudioInit available vs => audioInitVoices available vs a
  | VoicesChanged vs => loadVoices vs a
  | AudioSpeak available vs text => audioSpeakText available vs text a
  | UtteranceEnd => utteranceEnd a
  | UtteranceError => utteranceError a
  end.

Definition audioRun (a : AudioState) (es : list AudioEvent) : AudioState :=
  fold_left audioDispatch es a.

End Audio.

(** The calls of utterances spoken one after the other. *)
Fixpoint spoken (us : list Utterance) : list SynthCall :=
  match us with
  | [] => []
  | u :: us => SynthCancel :: SynthSpeak u :: spoken us
  end.

(** ** The phases of a session *)

(** The completed flags when the first [k] steps are done. *)
Definition flags (k : nat) : list bool :=
  replicate k true ++ replicate (6 - k) false.

(** The timer of the first announcement is pending or has fired. *)
Definition init_timer (pre : list (nat * Callback)) : Prop :=
  pre = [] ∨ ∃ t, pre = [(800, AnnounceFirst t)].

(** [c] is the closure of the success of the current task of [s]. *)
Definition closure_of (T : list Task) (s : GameState) (c : SuccessClosure) : Prop :=
  cl_tasks c = T
  ∧ cl_currentTaskIndex c = currentTaskIndex s
  ∧ currentTaskIndex s < length T
  ∧ cl_failedStepsCount c ≤ currentTaskIndex s
  ∧ failedStepsCount s = finalFailedCount c.

(** Where a session over the tasks [T], begun with the store [ls0], stands:
    taking input, between match and success sound, between success sound
    and the next task, or finished. *)
Inductive session_phase (letter : jsstring) (ls0 : Storage) (T : list Task)
    (w : World) : Prop :=
| PhaseAwaiting :
    gameFinished (game w) = false →
    isProcessingSuccess (game w) = false →
    init_timer (timers w) →
    (currentTaskIndex (game w) < length T
     ∨ T = [] ∧ currentTaskIndex (game w) = 0) →
    failedStepsCount (game w) ≤ currentTaskIndex (game w) →
    completedSteps (game w) = flags (currentTaskIndex (game w)) →
    localStorage w = ls0 →
    session_phase letter ls0 T w
| PhaseSpoken pre c :
    gameFinished (game w) = false →
    isProcessingSuccess (game w) = true →
    init_timer pre →
    timers w = pre ++ [(1000, AfterSpeak c)] →
    closure_of T (game w) c →
    completedSteps (game w) = flags (currentTaskIndex (game w)) →
    localStorage w = ls0 →
    session_phase letter ls0 T w
| PhaseSounded pre c :
    gameFinished (game w) = false →
    isProcessingSuccess (game w) = true →
    init_timer pre →
    timers w = pre ++ [(2000, AfterSound c)] →
    closure_of T (game w) c →
    completedSteps (game w) = flags (currentTaskIndex (game w) + 1) →
    localStorage w = ls0 →
    session_phase letter ls0 T w
| PhaseFinished :
    gameFinished (game w) = true →
    isProcessingSuccess (game w) = true →
    init_timer (timers w) →
    currentTaskIndex (game w) + 1 = length T →
    failedStepsCount (game w) ≤ length T →
    completedSteps (game w) = flags (length T) →
    finalStars (game w) = stars (failedStepsCount (game w)) →
    localStorage w
    = saveLetterScore letter (stars (failedStepsCount (game w))) ls0 →
    session_phase letter ls0 T w.

Definition session_inv (letter : jsstring) (ls0 : Storage) (T : list Task)
    (w : World) : Prop :=
  tasks (game w) = T ∧ length T ≤ 6 ∧ session_phase letter ls0 T w.

(** The events of a mounted component. *)
Definition isMount (e : Event) : bool :=
  match e with
  | Mount _ _ => true
  | _ => false
  end.

(** [w'] differs from [w] at most in the grid, the move count, the dragged
    tile and the audio calls. *)
Definition same_session (w w' : World) : Prop :=
  tasks (game w') = tasks (game w)
  ∧ currentTaskIndex (game w') = currentTaskIndex (game w)
  ∧ failedStepsCount (game w') = failedStepsCount (game w)
  ∧ completedSteps (game w') = completedSteps (game w)
  ∧ isProcessingSuccess (game w') = isProcessingSuccess (game w)
  ∧ gameFinished (game w') = gameFinished (game w)
  ∧ finalStars (game w') = finalStars (game w)
  ∧ localStorage w' = localStorage w
  ∧ timers w' = timers w.

(** The timer firings a callback stands for: the callback after the spoken
    word schedules the one after the success sound. *)
Definition firings (cb : Callback) : nat :=
  match cb with
  | AnnounceFirst _ => 1
  | AfterSpeak _ => 2
  | AfterSound _ => 1
  end.

Definition pendingFirings (w : World) : nat :=
  sum_list_with (λ t, firings t.2) (timers w).

(** The events after the mount of the component: [es] holds no second
    mount. *)
Definition mounted (es : list Event) : Prop :=
  Forall (λ e, isMount e = false) es.

(** The world of a session: the component is mounted over the store [ls],
    the two shuffles give [sy] and [wo], and the events [es] follow. *)
Definition session (rows cols : nat) (toLowerCase : jsstring → jsstring)
    (LEARNING_DATA : jsstring → option LetterData) (letter : jsstring)
    (ls : Storage) (sy wo : list jsstring) (es : list Event) : World :=
  run rows cols toLowerCase LEARNING_DATA letter (initialWorld ls)
      (Mount sy wo :: es).

(** A whole session of six failed rounds, and the start of one for "О", a
    letter without data. *)
Definition full_session_events : list Event := TimerFires :: six_failed_rounds.

Definition idle_events : list Event :=
  stray 3 0 ++ [TimerFires; ClickReannounce; DragStart (key cyr_k) None].

(** The first syllable is matched on the sixth move. *)
Definition match_events : list Event :=
  TimerFires :: stray 4 0 ++ spell [cyr_a; cyr_m] 4.

(** What a cell contributes to its row in [checkGridForWord]. *)
Definition cellText (toLowerCase : jsstring → jsstring) (state : GridState)
    (k : nat) : jsstring :=
  match state !! k with
  | Some item => toLowerCase (item_char item)
  | None => [BLANK]
  end.


(** A voice cache with one Russian voice. *)
Definition one_voice : AudioState :=
  mkAudioState [mkVoice (lit "ru-RU") (lit "Milena")] None [] 0.

(** * Properties *)

(** ** The match detector: what it decides *)

(** *** Scanning a row of one-unit cells is a substring test *)

Lemma single_cells_units (cells : list jsstring) :
  Forall (λ c, length c = 1) cells →
  cells = map (λ u, [u]) (concat cells).
Proof.
  induction 1 as [|c cells Hc _ IH]; [done|].
  destruct c as [|u [|? ?]]; simpl in *; try lia.
  by f_equal.
Qed.

Lemma matchAt_units (us target : jsstring) i :
  i + length target ≤ length us →
  matchAt (map (λ u, [u]) us) target i = true ↔
  take (length target) (drop i us) = target.
Proof.
  intros Hlen. unfold matchAt. rewrite forallb_forall. split.
  - intros H. apply list_eq. intros j.
    destruct (decide (j < length target)) as [Hj|Hj].
    + rewrite lookup_take_lt by done. rewrite lookup_drop.
      specialize (H j). rewrite in_seq in H.
      assert (Hb : bool_decide (map (λ u : N, [u]) us !! (i + j)
                    = (λ u, [u]) <$> target !! j) = true) by (apply H; lia).
      apply bool_decide_eq_true_1 in Hb. rewrite list_lookup_fmap in Hb.
      destruct (us !! (i + j)), (target !! j); simpl in Hb; congruence.
    + rewrite lookup_take_ge by lia.
      symmetry. apply lookup_ge_None. lia.
  - intros H j Hj. rewrite in_seq in Hj. apply bool_decide_eq_true_2.
    rewrite list_lookup_fmap. f_equal.
    assert (Hj' : take (length target) (drop i us) !! j = us !! (i + j)).
    { rewrite lookup_take_lt by lia. by rewrite lookup_drop. }
    rewrite <- Hj'. by rewrite H.
Qed.

Lemma substring_of_take_drop (w s : jsstring) :
  substring_of w s ↔
  ∃ i, i + length w ≤ length s ∧ take (length w) (drop i s) = w.
Proof.
  split.
  - intros (pre & post & ->). exists (length pre). split.
    + rewrite !length_app. lia.
    + rewrite drop_app_length. by rewrite take_app_length.
  - intros (i & Hi & Ht). exists (take i s), (drop (length w) (drop i s)).
    rewrite <- Ht at 1. by rewrite !take_drop.
Qed.

Lemma scanRow_substring (cells : list jsstring) (target : jsstring) :
  Forall (λ c, length c = 1) cells →
  scanRow cells target = true ↔ substring_of target (concat cells).
Proof.
  intros Hc. pose proof (single_cells_units _ Hc) as Hu.
  assert (Hl : length cells = length (concat cells)).
  { rewrite Hu at 1. by rewrite length_map. }
  rewrite substring_of_take_drop. unfold scanRow.
  destruct (decide (length target ≤ length cells)) as [Hle|Hgt].
  - rewrite existsb_exists. split.
    + intros (i & Hi & Hm). rewrite in_seq in Hi. exists i.
      assert (i + length target ≤ length (concat cells)) by lia.
      split; [done|]. rewrite Hu in Hm. by apply matchAt_units in Hm.
    + intros (i & Hi & Ht). exists i. split; [rewrite in_seq; lia|].
      rewrite Hu. by apply matchAt_units.
  - split; [done|]. intros (i & Hi & _). lia.
Qed.

(** An empty target matches at position 0 of any row. *)
Lemma scanRow_empty_target (cells : list jsstring) : scanRow cells [] = true.
Proof.
  unfold scanRow. destruct (decide _) as [_|Hn]; [|simpl in Hn; lia].
  replace (length cells - length [] + 1) with (S (length cells)) by (simpl; lia).
  done.
Qed.

Lemma rowChars_length cols toLowerCase (state : GridState) r :
  length (rowChars cols toLowerCase state r) = cols.
Proof. unfold rowChars. by rewrite length_map, length_seq. Qed.

Lemma rowChars_single cols toLowerCase (state : GridState) r :
  single_unit_tiles toLowerCase state →
  Forall (λ c, length c = 1) (rowChars cols toLowerCase state r).
Proof.
  intros Hs. unfold rowChars. apply Forall_map, Forall_forall.
  intros c _. simpl. destruct (state !! _) as [it|] eqn:E; eauto.
Qed.

Lemma checkGridForWord_rows rows cols toLowerCase (state : GridState) W :
  checkGridForWord rows cols toLowerCase state W = true ↔
  ∃ r, r < rows ∧
       scanRow (rowChars cols toLowerCase state r) (cleanTarget toLowerCase W) = true.
Proof.
  unfold checkGridForWord. rewrite existsb_exists. split.
  - intros (r & Hr & Hs). rewrite in_seq in Hr. exists r. split; [lia|done].
  - intros (r & Hr & Hs). exists r. split; [rewrite in_seq; lia|done].
Qed.

(** C2 (as amended): the detector answers [true] exactly when some single
    row, read left to right with every tile's character lowercased and a
    blank in each empty cell, contains the target with its dashes removed and
    lowercased as a contiguous substring.  On the row "с","о","к",_,_ the
    targets "сок" and "ок" match and "кос" does not; a word broken over the
    end of a row does not match. *)
Theorem checkGridForWord_lowercased_row :
  (∀ rows cols toLowerCase (state : GridState) W,
     single_unit_tiles toLowerCase state →
     checkGridForWord rows cols toLowerCase state W = true ↔
     ∃ r, r < rows ∧
          substring_of (cleanTarget toLowerCase W)
                       (rowString cols toLowerCase state r))
  ∧ checkGridForWord 3 5 toLowerCase_ru grid_sok [cyr_s; cyr_o; cyr_k] = true
  ∧ checkGridForWord 3 5 toLowerCase_ru grid_sok [cyr_o; cyr_k] = true
  ∧ checkGridForWord 3 5 toLowerCase_ru grid_sok [cyr_k; cyr_o; cyr_s] = false
  ∧ checkGridForWord 3 5 toLowerCase_ru grid_wrapped [cyr_s; cyr_o; cyr_k] = false.
Proof.
  split; [|by vm_compute].
  intros rows cols toLowerCase state W Hs.
  rewrite checkGridForWord_rows. unfold rowString.
  split; intros (r & Hr & H); exists r; (split; [done|]).
  - apply scanRow_substring in H; [done|]. by apply rowChars_single.
  - apply scanRow_substring; [|done]. by apply rowChars_single.
Qed.

Lemma grid_sok_single_unit : single_unit_tiles toLowerCase_ru grid_sok.
Proof.
  intros k item Hk. unfold grid_sok in Hk.
  repeat (apply lookup_insert_Some in Hk as [[_ <-]|[_ Hk]]; [done|]).
  by rewrite lookup_empty in Hk.
Qed.

Lemma checkGridForWord_lowercased_row_witness :
  checkGridForWord 3 5 toLowerCase_ru grid_sok [cyr_s; DASH; cyr_o; cyr_k] = true ↔
  ∃ r, r < 3 ∧
       substring_of (cleanTarget toLowerCase_ru [cyr_s; DASH; cyr_o; cyr_k])
                    (rowString 5 toLowerCase_ru grid_sok r).
Proof.
  exact (proj1 checkGridForWord_lowercased_row 3 5 toLowerCase_ru grid_sok
           [cyr_s; DASH; cyr_o; cyr_k] grid_sok_single_unit).
Defined.

(** C2 (as stated) fails on capital tiles: the detector lowercases each
    tile before comparing, so "С","О","К" matches the target "сок", while the
    row read as placed does not contain "сок". *)
Lemma checkGridForWord_not_raw_row :
  checkGridForWord 3 5 toLowerCase_ru grid_SOK [cyr_s; cyr_o; cyr_k] = true
  ∧ ¬ spec_matches 3 5 toLowerCase_ru grid_SOK [cyr_s; cyr_o; cyr_k].
Proof.
  split; [by vm_compute|].
  intros (r & Hr & Hsub).
  apply scanRow_substring in Hsub.
  - destruct r as [|[|[|r]]]; [by vm_compute in Hsub..|lia].
  - destruct r as [|[|[|r]]]; [by vm_compute; repeat constructor..|lia].
Qed.

(** C10: when the target normalises to the empty string the detector
    answers [true] on every grid, the empty one included, as soon as the
    grid has a row. *)
Theorem checkGridForWord_empty_target rows cols toLowerCase (state : GridState) W :
  0 < rows →
  cleanTarget toLowerCase W = [] →
  checkGridForWord rows cols toLowerCase state W = true.
Proof.
  intros Hrows HW. apply checkGridForWord_rows. exists 0. split; [done|].
  rewrite HW. apply scanRow_empty_target.
Qed.

Lemma checkGridForWord_empty_target_witness :
  checkGridForWord 3 5 toLowerCase_ru ∅ [DASH; DASH] = true
  ∧ checkGridForWord 3 5 toLowerCase_ru grid_sok [] = true.
Proof.
  split.
  - apply (checkGridForWord_empty_target 3 5 toLowerCase_ru ∅ [DASH; DASH]);
      [lia | reflexivity].
  - apply (checkGridForWord_empty_target 3 5 toLowerCase_ru grid_sok []);
      [lia | reflexivity].
Defined.

(** ** The score function and finalisation *)

(** C3: [finishGame] rates every failed-steps count: 0 and 1 give three
    stars, 2 and 3 give two, 4 and 5 give one, 6 and more give none. *)
Theorem finishGame_stars letter (n : nat) (w : World) :
  finalStars (game (finishGame letter n w)) = stars n
  ∧ (stars n = 3 ↔ n ≤ 1)
  ∧ (stars n = 2 ↔ 2 ≤ n ≤ 3)
  ∧ (stars n = 1 ↔ 4 ≤ n ≤ 5)
  ∧ (stars n = 0 ↔ 6 ≤ n).
Proof.
  split; [done|]. unfold stars. repeat case_decide; lia.
Qed.

(** ** Session initialisation *)

Lemma take3_of_shuffle (array result : list jsstring) :
  NoDup array → 3 ≤ length array → array ≡ₚ result →
  ∃ a b c, take 3 result = [a; b; c] ∧ NoDup [a; b; c] ∧
           a ∈ array ∧ b ∈ array ∧ c ∈ array.
Proof.
  intros Hnd Hlen Hp.
  assert (Hl : length result = length array) by (by rewrite Hp).
  destruct result as [|a [|b [|c rest]]]; simpl in Hl; try lia.
  exists a, b, c. split; [done|].
  rewrite Hp in Hnd. rewrite !Hp. split.
  - apply (NoDup_app [a; b; c] rest) in Hnd. tauto.
  - set_solver.
Qed.

(** C6: for a letter with data whose syllable and word sets have at least
    three members each, initialisation sets six tasks, three distinct
    syllables of the letter followed by three distinct words of the letter,
    and leaves every counter at zero. *)
Theorem initEffect_six_tasks LEARNING_DATA letter data sy wo ls :
  LEARNING_DATA letter = Some data →
  NoDup (syllables data) → 3 ≤ length (syllables data) →
  NoDup (words data) → 3 ≤ length (words data) →
  shuffle_result (syllables data) sy →
  shuffle_result (words data) wo →
  let s := game (initEffect LEARNING_DATA letter sy wo (initialWorld ls)) in
  (∃ s1 s2 s3 w1 w2 w3,
     tasks s = [mkTask s1 Syllable; mkTask s2 Syllable; mkTask s3 Syllable;
                mkTask w1 Word; mkTask w2 Word; mkTask w3 Word]
     ∧ NoDup [s1; s2; s3] ∧ NoDup [w1; w2; w3]
     ∧ s1 ∈ syllables data ∧ s2 ∈ syllables data ∧ s3 ∈ syllables data
     ∧ w1 ∈ words data ∧ w2 ∈ words data ∧ w3 ∈ words data)
  ∧ length (tasks s) = 6
  ∧ currentTaskIndex s = 0 ∧ moveCount s = 0 ∧ failedStepsCount s = 0
  ∧ completedSteps s = [false; false; false; false; false; false]
  ∧ gridState s = ∅
  ∧ isProcessingSuccess s = false ∧ gameFinished s = false.
Proof.
  intros HD Hns Hls Hnw Hlw Hsy Hwo.
  destruct (take3_of_shuffle _ _ Hns Hls Hsy) as (s1 & s2 & s3 & Es & Hs & ?).
  destruct (take3_of_shuffle _ _ Hnw Hlw Hwo) as (w1 & w2 & w3 & Ew & Hw & ?).
  unfold initEffect, andThen. rewrite HD, Es, Ew. simpl.
  split; [|done]. exists s1, s2, s3, w1, w2, w3. tauto.
Qed.

(** ** The lock *)

Section Frames.

Variables GRID_ROWS GRID_COLS : nat.
Variable toLowerCase : jsstring → jsstring.
Variable LEARNING_DATA : jsstring → option LetterData.
Variable letter : jsstring.

Local Abbreviation step :=
  (dispatch GRID_ROWS GRID_COLS toLowerCase LEARNING_DATA letter).

(** C7: while the success choreography runs or after the game finished, a
    drag start changes nothing and a drag end only clears the dragged-tile
    overlay: grid, move count, failed-steps count and completed flags keep
    their values. *)
Theorem locked_drag_rejected (w : World) data rect over env :
  gameFinished (game w) || isProcessingSuccess (game w) = true →
  step w (DragStart data rect) = w
  ∧ step w (DragEnd data over env) = setActiveDragData None w
  ∧ let w' := step w (DragEnd data over env) in
    gridState (game w') = gridState (game w)
    ∧ moveCount (game w') = moveCount (game w)
    ∧ failedStepsCount (game w') = failedStepsCount (game w)
    ∧ completedSteps (game w') = completedSteps (game w)
    ∧ localStorage w' = localStorage w
    ∧ timers w' = timers w
    ∧ calls w' = calls w.
Proof.
  intros Hlock. unfold dispatch.
  unfold handleDragStart, handleDragEnd. rewrite Hlock. done.
Qed.

(** C9 (as amended): a click on the repeat button never changes the
    component state, the store or the timers; it does nothing once the game
    is finished, and otherwise speaks the prompt of the current task, also
    while the success choreography is running. *)
Theorem reannounce_frame (w : World) :
  let w' := step w ClickReannounce in
  game w' = game w
  ∧ localStorage w' = localStorage w
  ∧ timers w' = timers w
  ∧ (gameFinished (game w) = true → w' = w)
  ∧ (gameFinished (game w) = false →
     w' = announceTask (tasks (game w) !! currentTaskIndex (game w)) w).
Proof.
  unfold dispatch, reannounceRendered, onReannounceClick.
  simpl. destruct (gameFinished (game w)); simpl; [done|].
  unfold announceTask. destruct (tasks (game w) !! _); done.
Qed.

End Frames.

Lemma w_locked_is_locked :
  gameFinished (game w_locked) || isProcessingSuccess (game w_locked) = true.
Proof. by vm_compute. Qed.

Lemma locked_drag_rejected_witness :
  dispatch 3 5 toLowerCase_ru LEARNING_DATA_A letter_A w_locked
    (DragStart (key cyr_k) None) = w_locked
  ∧ dispatch 3 5 toLowerCase_ru LEARNING_DATA_A letter_A w_locked
      (put cyr_k 7 9) = setActiveDragData None w_locked
  ∧ let w' := dispatch 3 5 toLowerCase_ru LEARNING_DATA_A letter_A w_locked
                (put cyr_k 7 9) in
    gridState (game w') = gridState (game w_locked)
    ∧ moveCount (game w') = moveCount (game w_locked)
    ∧ failedStepsCount (game w') = failedStepsCount (game w_locked)
    ∧ completedSteps (game w') = completedSteps (game w_locked)
    ∧ localStorage w' = localStorage w_locked
    ∧ timers w' = timers w_locked
    ∧ calls w' = calls w_locked.
Proof.
  exact (locked_drag_rejected 3 5 toLowerCase_ru LEARNING_DATA_A letter_A
           w_locked (key cyr_k) None (cell 7) (clock 9) w_locked_is_locked).
Defined.

(** C9 (as stated) fails while the success choreography runs: the repeat
    button is still there and its click speaks the prompt. *)
Lemma reannounce_during_success :
  isProcessingSuccess (game w_locked) = true
  ∧ awaitingInput (game w_locked) = false
  ∧ calls (play w_locked [ClickReannounce])
    = calls w_locked ++ [SpeakText (NAPISHI_SLOG ++ [cyr_a; DASH; cyr_m])].
Proof. by vm_compute. Qed.

(** ** The drop logic and the identity of tiles *)

Lemma transpose_inj i j k1 k2 : transpose i j k1 = transpose i j k2 → k1 = k2.
Proof. unfold transpose. repeat case_decide; congruence. Qed.

Lemma transpose_involutive i j k : transpose i j (transpose i j k) = k.
Proof. unfold transpose. repeat case_decide; congruence. Qed.

Lemma cell_is_not_keyboard_area (o : Over) :
  startsWith (lit "cell-") (over_id o) = true →
  bool_decide (over_id o = lit "keyboard-area") = false.
Proof.
  intros H. apply bool_decide_eq_false_2. intros E. rewrite E in H.
  vm_compute in H. discriminate.
Qed.

Lemma orElse_own_id (A : GridItem) d :
  item_id A ≠ [] →
  mkGridItem (item_char A) (orElse (Some (item_id A)) d) = A.
Proof. destruct A as [c [|u r]]; simpl; [congruence|done]. Qed.

(** The drop logic by target: the keyboard area, a cell, anything else. *)
Lemma dropLogic_on_keyboard_area (g : GridState) data o env :
  drag_origin data = OriginGrid →
  bool_decide (over_id o = lit "keyboard-area") = true →
  dropLogic g data o env =
    (match drag_index data with Some index => delete index g | None => g end, true).
Proof. intros Ho Hk. unfold dropLogic. by rewrite Ho, Hk. Qed.

Lemma dropLogic_on_cell (g : GridState) data o j env :
  is_cell o j →
  dropLogic g data o env =
    match drag_origin data, drag_index data with
    | OriginGrid, Some index =>
        if bool_decide (index ≠ j) then
          (<[j := mkGridItem (drag_char data) (orElse (drag_id data) (itemId env))]>
             (match g !! j with
              | Some e => <[index := e]> (delete index g)
              | None => delete index g
              end), true)
        else (g, false)
    | OriginGrid, None => (g, false)
    | OriginKeyboard, _ =>
        (<[j := mkGridItem (drag_char data) (newId (drag_char data) env)]> g, true)
    end.
Proof.
  intros (Hcell & Hidx). unfold dropLogic.
  rewrite (cell_is_not_keyboard_area _ Hcell), andb_false_r, Hcell, Hidx.
  done.
Qed.

Lemma dropLogic_elsewhere (g : GridState) data o env :
  bool_decide (drag_origin data = OriginGrid)
    && bool_decide (over_id o = lit "keyboard-area") = false →
  (startsWith (lit "cell-") (over_id o) = false ∨ over_index o = None) →
  dropLogic g data o env = (g, false).
Proof.
  intros Hk Hc. unfold dropLogic. rewrite Hk.
  destruct (startsWith _ _); [|done]. destruct Hc as [?| ->]; done.
Qed.

(** Every target is of one of the three kinds. *)
Lemma over_cases (data : DragData) (o : Over) :
  (drag_origin data = OriginGrid
   ∧ bool_decide (over_id o = lit "keyboard-area") = true)
  ∨ (∃ j, is_cell o j)
  ∨ (bool_decide (drag_origin data = OriginGrid)
       && bool_decide (over_id o = lit "keyboard-area") = false
     ∧ (startsWith (lit "cell-") (over_id o) = false ∨ over_index o = None)).
Proof.
  destruct (startsWith (lit "cell-") (over_id o)) eqn:Hc.
  - destruct (over_index o) as [j|] eqn:Hj.
    + right. left. by exists j.
    + right. right. rewrite (cell_is_not_keyboard_area _ Hc), andb_false_r. auto.
  - destruct (bool_decide (over_id o = lit "keyboard-area")) eqn:Hk.
    + destruct (drag_origin data) eqn:Ho.
      * by left.
      * right. right. rewrite bool_decide_eq_false_2 by done. auto.
    + right. right. rewrite andb_false_r. auto.
Qed.

(** A grid tile dropped on another cell: the two cells change contents,
    whether the target held a tile or not. *)
Lemma dropLogic_grid_to_cell (g : GridState) i A data o j env :
  payload_of g i A data → is_cell o j → i ≠ j →
  ∃ next, dropLogic g data o env = (next, true)
          ∧ ∀ k, next !! k = g !! transpose i j k.
Proof.
  intros (Hi & Hid & ->) Hcell Hij.
  rewrite (dropLogic_on_cell _ _ _ _ _ Hcell). cbn [drag_origin drag_index drag_id drag_char].
  rewrite bool_decide_eq_true_2 by done. rewrite orElse_own_id by done.
  eexists. split; [done|]. intros k. unfold transpose.
  destruct (decide (k = i)) as [->|Hki]; [|destruct (decide (k = j)) as [->|Hkj]].
  - rewrite lookup_insert_ne by done.
    destruct (g !! j) as [B|] eqn:Hj.
    + by rewrite lookup_insert_eq.
    + by rewrite lookup_delete_eq.
  - by rewrite lookup_insert_eq.
  - rewrite lookup_insert_ne by done.
    destruct (g !! j) as [B|].
    + rewrite lookup_insert_ne by done. by rewrite lookup_delete_ne.
    + by rewrite lookup_delete_ne.
Qed.

(** A grid tile dropped on its own cell changes nothing. *)
Lemma dropLogic_same_cell (g : GridState) data o j env :
  drag_origin data = OriginGrid → drag_index data = Some j → is_cell o j →
  dropLogic g data o env = (g, false).
Proof.
  intros Ho Hi Hcell. rewrite (dropLogic_on_cell _ _ _ _ _ Hcell), Ho, Hi.
  by rewrite bool_decide_eq_false_2 by (intros ?; done).
Qed.

Lemma unique_ids_transpose (g next : GridState) i j :
  (∀ k, next !! k = g !! transpose i j k) → unique_ids g → unique_ids next.
Proof.
  intros Hn Hu k1 k2 a b H1 H2 Hab. rewrite Hn in H1, H2.
  apply (transpose_inj i j). by eapply Hu.
Qed.

Lemma unique_ids_delete (g : GridState) i : unique_ids g → unique_ids (delete i g).
Proof.
  intros Hu k1 k2 a b H1 H2 Hab.
  apply lookup_delete_Some in H1 as [_ H1]. apply lookup_delete_Some in H2 as [_ H2].
  by eapply Hu.
Qed.

Lemma unique_ids_insert_fresh (g : GridState) j t :
  fresh_id g (item_id t) → unique_ids g → unique_ids (<[j := t]> g).
Proof.
  intros Hf Hu k1 k2 a b H1 H2 Hab.
  apply lookup_insert_Some in H1 as [[<- <-]|[Hn1 H1]];
    apply lookup_insert_Some in H2 as [[<- <-]|[Hn2 H2]]; try done.
  - exfalso. by eapply Hf.
  - exfalso. by eapply Hf.
  - by eapply Hu.
Qed.

(** With well-formed gestures the drop logic keeps tile ids unique. *)
Lemma dropLogic_unique_ids (g : GridState) data o env :
  unique_ids g → well_formed_drag g data env →
  unique_ids (dropLogic g data o env).1.
Proof.
  intros Hu Hwf. unfold well_formed_drag in Hwf.
  destruct (over_cases data o) as [[Ho Hk]|[[j Hcell]|[Hk Hc]]].
  - rewrite dropLogic_on_keyboard_area by done.
    destruct (drag_index data); simpl; [by apply unique_ids_delete|done].
  - destruct (drag_origin data) eqn:Ho.
    + destruct Hwf as (i & A & Hp).
      destruct (decide (i = j)) as [->|Hij].
      * destruct Hp as (_ & _ & ->). by rewrite (dropLogic_same_cell _ _ _ j).
      * destruct (dropLogic_grid_to_cell g i A data o j env Hp Hcell Hij)
          as (next & -> & Hn).
        by eapply unique_ids_transpose.
    + rewrite (dropLogic_on_cell _ _ _ _ _ Hcell), Ho. simpl.
      by apply unique_ids_insert_fresh.
  - by rewrite dropLogic_elsewhere.
Qed.

(** With well-formed gestures on a grid of unique ids, [didChange] is raised
    only for a grid that differs from the one before. *)
Lemma dropLogic_did_change (g : GridState) data o env :
  unique_ids g → well_formed_drag g data env →
  (dropLogic g data o env).2 = true →
  (dropLogic g data o env).1 ≠ g.
Proof.
  intros Hu Hwf. unfold well_formed_drag in Hwf.
  destruct (over_cases data o) as [[Ho Hk]|[[j Hcell]|[Hk Hc]]].
  - rewrite dropLogic_on_keyboard_area by done. rewrite Ho in Hwf.
    destruct Hwf as (i & A & Hi & _ & ->). simpl.
    intros _ E. apply (f_equal (λ m : gmap nat GridItem, m !! i)) in E.
    rewrite lookup_delete_eq in E. congruence.
  - destruct (drag_origin data) eqn:Ho.
    + destruct Hwf as (i & A & Hp).
      destruct (decide (i = j)) as [->|Hij].
      * destruct Hp as (_ & _ & ->). by rewrite (dropLogic_same_cell _ _ _ j).
      * destruct (dropLogic_grid_to_cell g i A data o j env Hp Hcell Hij)
          as (next & -> & Hn).
        simpl. intros _ ->. specialize (Hn i).
        unfold transpose in Hn. rewrite decide_True in Hn by done.
        destruct Hp as (Hi & _ & _). rewrite Hi in Hn.
        apply Hij. symmetry in Hn. by eapply Hu.
    + rewrite (dropLogic_on_cell _ _ _ _ _ Hcell), Ho. simpl.
      intros _ E. apply (f_equal (λ m : gmap nat GridItem, m !! j)) in E.
      rewrite lookup_insert_eq in E. symmetry in E.
      by eapply Hwf.
  - by rewrite dropLogic_elsewhere.
Qed.

(** ** What a drag end does to the session *)

(** Runs a sequence of updates on a world, down to its fields. *)
Ltac eval_actions :=
  lazy beta iota zeta delta
    [andThen skip playSound speakText setGridState setMoveCount
     setActiveDragData setDragSize setIsProcessingSuccess
     setFailedStepsCount setCompletedSteps setCurrentTaskIndex
     setGameFinished setFinalStars setTasks setTimeout call updGame
     updStorage announceTask
     game localStorage timers calls
     gridState activeDragData dragSize tasks currentTaskIndex moveCount
     failedStepsCount completedSteps isProcessingSuccess gameFinished
     finalStars].

Lemma awaitingInput_flags (s : GameState) :
  awaitingInput s = true → gameFinished s || isProcessingSuccess s = false.
Proof. unfold awaitingInput. by intros ?%negb_true_iff. Qed.

Lemma awaitingInput_unlocked (s : GameState) :
  awaitingInput s = true → isProcessingSuccess s = false ∧ gameFinished s = false.
Proof. intros H%awaitingInput_flags. by apply orb_false_elim in H as [-> ->]. Qed.

Section DragEnd.

Variables GRID_ROWS GRID_COLS : nat.
Variable toLowerCase : jsstring → jsstring.

Local Abbreviation handleDragEnd' := (handleDragEnd GRID_ROWS GRID_COLS toLowerCase).
Local Abbreviation matches := (checkGridForWord GRID_ROWS GRID_COLS toLowerCase).

Lemma handleDragEnd_commit (w : World) data over env next t :
  commits (game w) data over env = Some next →
  tasks (game w) !! currentTaskIndex (game w) = Some t →
  let s := game w in
  let verdict := matches next (text t) in
  let w' := handleDragEnd' s data over env w in
  gridState (game w') = next
  ∧ moveCount (game w') = moveCount s + 1
  ∧ isProcessingSuccess (game w') = verdict
  ∧ failedStepsCount (game w')
    = failedStepsCount s + (if verdict && isFailedStep s t then 1 else 0)
  ∧ calls w' = calls w ++ [PlaySound Drop;
                           SpeakText (if verdict then removeDashes (text t)
                                      else drag_char data)]
  ∧ timers w' = timers w ++
      (if verdict
       then [(1000, AfterSpeak (mkSuccessClosure (tasks s) (currentTaskIndex s)
                                  (failedStepsCount s) (isFailedStep s t)))]
       else [])
  ∧ tasks (game w') = tasks s
  ∧ currentTaskIndex (game w') = currentTaskIndex s
  ∧ completedSteps (game w') = completedSteps s
  ∧ gameFinished (game w') = false
  ∧ localStorage w' = localStorage w.
Proof.
  unfold commits. destruct (awaitingInput (game w)) eqn:Ha; [|done].
  destruct (awaitingInput_unlocked _ Ha) as [Hp Hf].
  destruct over as [o|]; [|done].
  destruct (dropLogic _ _ _ _) as [next' did] eqn:Hd.
  destruct did; [|done]. intros [= ->] Ht. simpl.
  unfold handleDragEnd. rewrite (awaitingInput_flags _ Ha), Hd, Ht.
  unfold handleTaskSuccess, isFailedStep.
  destruct (checkGridForWord _ _ _ _ _).
  - destruct (bool_decide _); eval_actions;
      rewrite <- !app_assoc; repeat split; done.
  - eval_actions. rewrite <- !app_assoc, app_nil_r.
    repeat split; done.
Qed.

Lemma handleDragEnd_commit_no_task (w : World) data over env next :
  commits (game w) data over env = Some next →
  tasks (game w) !! currentTaskIndex (game w) = None →
  let s := game w in
  let w' := handleDragEnd' s data over env w in
  gridState (game w') = next
  ∧ moveCount (game w') = moveCount s + 1
  ∧ isProcessingSuccess (game w') = false
  ∧ failedStepsCount (game w') = failedStepsCount s
  ∧ calls w' = calls w ++ [PlaySound Drop; SpeakText (drag_char data)]
  ∧ timers w' = timers w.
Proof.
  unfold commits. destruct (awaitingInput (game w)) eqn:Ha; [|done].
  destruct (awaitingInput_unlocked _ Ha) as [Hp Hf].
  destruct over as [o|]; [|done].
  destruct (dropLogic _ _ _ _) as [next' did] eqn:Hd.
  destruct did; [|done]. intros [= ->] Ht. simpl.
  unfold handleDragEnd. rewrite (awaitingInput_flags _ Ha), Hd, Ht.
  eval_actions. rewrite <- !app_assoc. repeat split; done.
Qed.

Lemma handleDragEnd_no_commit (w : World) data over env :
  commits (game w) data over env = None →
  let s := game w in
  let w' := handleDragEnd' s data over env w in
  gridState (game w') = gridState s
  ∧ moveCount (game w') = moveCount s
  ∧ isProcessingSuccess (game w') = isProcessingSuccess s
  ∧ failedStepsCount (game w') = failedStepsCount s
  ∧ completedSteps (game w') = completedSteps s
  ∧ timers w' = timers w
  ∧ localStorage w' = localStorage w
  ∧ calls w' = calls w ++ (if awaitingInput s then [PlaySound Drop] else []).
Proof.
  unfold commits, handleDragEnd.
  destruct (awaitingInput (game w)) eqn:Ha.
  - rewrite (awaitingInput_flags _ Ha).
    destruct over as [o|]; [|done].
    destruct (dropLogic _ _ _ _) as [next' did]. by destruct did.
  - unfold awaitingInput in Ha. apply negb_false_iff in Ha. rewrite Ha.
    eval_actions. by rewrite app_nil_r.
Qed.

(** The grid after a drag end is the committed one, or the one before. *)
Lemma handleDragEnd_grid (w : World) data over env :
  gridState (game (handleDragEnd' (game w) data over env w))
  = default (gridState (game w)) (commits (game w) data over env).
Proof.
  destruct (commits (game w) data over env) as [next|] eqn:Hc.
  - revert Hc. unfold commits, handleDragEnd.
    destruct (awaitingInput (game w)) eqn:Ha; [|done].
    rewrite (awaitingInput_flags _ Ha).
    destruct over as [o|]; [|done].
    destruct (dropLogic _ _ _ _) as [next' did]. destruct did; [|done].
    intros [= ->]. unfold handleTaskSuccess.
    destruct (tasks (game w) !! _); [destruct (checkGridForWord _ _ _ _ _)|];
      [destruct (bool_decide _)| |]; done.
  - by destruct (handleDragEnd_no_commit w data over env Hc) as (? & _).
Qed.

Lemma commits_dropLogic (s : GameState) data over env next :
  commits s data over env = Some next →
  ∃ o, over = Some o ∧ dropLogic (gridState s) data o env = (next, true).
Proof.
  unfold commits. destruct (awaitingInput s); [|done].
  destruct over as [o|]; [|done].
  destruct (dropLogic _ _ _ _) as [next' did] eqn:Hd. destruct did; [|done].
  intros [= ->]. by exists o.
Qed.

End DragEnd.

(** ** The drag gestures *)

(** C5: a drag end that commits a new grid state adds exactly one to the
    move count and lets the detector's verdict on the new grid against the
    current task decide what follows: the success choreography, or the letter
    being spoken.  A drag end that commits nothing leaves grid, move count
    and lock as they were and speaks nothing.  Nothing is committed without a
    drop target, nor when a grid tile is dropped on its own cell; and with a
    well-formed gesture a committed grid differs from the one before. *)
Theorem drag_end_counts_move rows cols toLowerCase LEARNING_DATA letter
    (w : World) data over env :
  let s := game w in
  let w' := dispatch rows cols toLowerCase LEARNING_DATA letter w
              (DragEnd data over env) in
  match commits s data over env with
  | Some next =>
      let verdict := currentTaskMatches rows cols toLowerCase s next in
      gridState (game w') = next
      ∧ moveCount (game w') = moveCount s + 1
      ∧ isProcessingSuccess (game w') = verdict
      ∧ (verdict = false →
         calls w' = calls w ++ [PlaySound Drop; SpeakText (drag_char data)])
      ∧ (unique_ids (gridState s) → well_formed_drag (gridState s) data env →
         next ≠ gridState s)
  | None =>
      gridState (game w') = gridState s
      ∧ moveCount (game w') = moveCount s
      ∧ isProcessingSuccess (game w') = isProcessingSuccess s
      ∧ timers w' = timers w
      ∧ calls w' = calls w ++ (if awaitingInput s then [PlaySound Drop] else [])
  end
  ∧ (over = None → commits s data over env = None)
  ∧ (∀ o j, over = Some o → drag_origin data = OriginGrid →
            drag_index data = Some j → is_cell o j →
            commits s data over env = None).
Proof.
  intros s w'. split; [|split].
  - destruct (commits s data over env) as [next|] eqn:Hc.
    + assert (Hne : unique_ids (gridState s) →
                    well_formed_drag (gridState s) data env → next ≠ gridState s).
      { intros Hu Hwf. destruct (commits_dropLogic _ _ _ _ _ Hc) as (o & _ & Hd).
        pose proof (dropLogic_did_change _ data o env Hu Hwf) as Hne.
        rewrite Hd in Hne. by apply Hne. }
      unfold currentTaskMatches.
      destruct (tasks s !! currentTaskIndex s) as [t|] eqn:Ht.
      * destruct (handleDragEnd_commit rows cols toLowerCase w data over env next t
                    Hc Ht) as (Hg & Hm & Hp & _ & Hcalls & _).
        repeat split; try done. intros Hv. by rewrite Hv in Hcalls.
      * destruct (handleDragEnd_commit_no_task rows cols toLowerCase w data over env
                    next Hc Ht) as (Hg & Hm & Hp & _ & Hcalls & _).
        done.
    + destruct (handleDragEnd_no_commit rows cols toLowerCase w data over env Hc)
        as (Hg & Hm & Hp & _ & _ & Htm & _ & Hcalls).
      done.
  - intros ->. unfold commits. by destruct (awaitingInput s).
  - intros o j -> Ho Hi Hcell. unfold commits. destruct (awaitingInput s); [|done].
    by rewrite (dropLogic_same_cell _ _ _ j).
Qed.

(** C4 (as amended): a grid tile A dragged from cell i onto another cell j
    that holds B leaves A in j and B in i, every other cell as it was, and
    the same tiles on the grid; a drag start never touches the grid; and a
    drag end keeps tile ids unique when the gesture is well formed, which for
    a keyboard tile means that the id made from the clock and the random draw
    is not yet on the grid. *)
Theorem drag_swaps_tiles :
  (∀ rows cols toLowerCase LEARNING_DATA letter (w : World) i j A B data o env,
     awaitingInput (game w) = true →
     payload_of (gridState (game w)) i A data →
     gridState (game w) !! j = Some B →
     is_cell o j → i ≠ j →
     let g := gridState (game w) in
     let g' := gridState (game (dispatch rows cols toLowerCase LEARNING_DATA letter
                                  w (DragEnd data (Some o) env))) in
     g' !! j = Some A ∧ g' !! i = Some B
     ∧ (∀ k, k ≠ i → k ≠ j → g' !! k = g !! k)
     ∧ (∀ t, (∃ k, g' !! k = Some t) ↔ (∃ k, g !! k = Some t))
     ∧ (unique_ids g → unique_ids g'))
  ∧ (∀ rows cols toLowerCase LEARNING_DATA letter (w : World) data rect,
       gridState (game (dispatch rows cols toLowerCase LEARNING_DATA letter
                          w (DragStart data rect)))
       = gridState (game w))
  ∧ (∀ rows cols toLowerCase LEARNING_DATA letter (w : World) data over env,
       unique_ids (gridState (game w)) →
       well_formed_drag (gridState (game w)) data env →
       unique_ids (gridState (game (dispatch rows cols toLowerCase LEARNING_DATA
                                      letter w (DragEnd data over env))))).
Proof.
  split; [|split].
  - intros rows cols toLowerCase LD letter w i j A B data o env Ha Hp Hj Hcell Hij g g'.
    destruct (dropLogic_grid_to_cell g i A data o j env Hp Hcell Hij)
      as (next & Hd & Hn).
    assert (Hg' : g' = next).
    { unfold g'. simpl. rewrite handleDragEnd_grid. unfold commits.
      fold g. by rewrite Ha, Hd. }
    rewrite Hg'. destruct Hp as (Hi & _ & _).
    assert (Ti : transpose i j i = j) by (unfold transpose; by rewrite decide_True).
    assert (Tj : transpose i j j = i).
    { unfold transpose. rewrite decide_False by done. by rewrite decide_True. }
    repeat split.
    + by rewrite Hn, Tj.
    + by rewrite Hn, Ti.
    + intros k Hki Hkj. rewrite Hn. unfold transpose.
      by rewrite !decide_False by done.
    + intros (k & Hk). exists (transpose i j k). by rewrite <- Hn.
    + intros (k & Hk). exists (transpose i j k).
      by rewrite Hn, transpose_involutive.
    + by apply unique_ids_transpose with i j.
  - intros rows cols toLowerCase LD letter w data rect. simpl.
    unfold handleDragStart.
    destruct (gameFinished (game w) || isProcessingSuccess (game w)); [done|].
    destruct rect; destruct (bool_decide _); done.
  - intros rows cols toLowerCase LD letter w data over env Hu Hwf. simpl.
    rewrite handleDragEnd_grid.
    destruct (commits (game w) data over env) as [next|] eqn:Hc; [|done].
    destruct (commits_dropLogic _ _ _ _ _ Hc) as (o & _ & Hd). simpl.
    pose proof (dropLogic_unique_ids _ data o env Hu Hwf) as Hn.
    by rewrite Hd in Hn.
Qed.

(** ** The success choreography and finalisation *)

Section Choreography.

Variable letter : jsstring.

Lemma fireTimer_afterSpeak (w : World) ms c :
  timers w = [(ms, AfterSpeak c)] →
  let w' := fireTimer letter w in
  timers w' = [(2000, AfterSound c)]
  ∧ failedStepsCount (game w') = failedStepsCount (game w)
  ∧ completedSteps (game w')
    = arraySet (cl_currentTaskIndex c) true (completedSteps (game w))
  ∧ gridState (game w') = gridState (game w)
  ∧ isProcessingSuccess (game w') = isProcessingSuccess (game w)
  ∧ gameFinished (game w') = gameFinished (game w)
  ∧ localStorage w' = localStorage w.
Proof. intros Ht. unfold fireTimer. rewrite Ht. done. Qed.

Lemma fireTimer_afterSound_last (w : World) ms c :
  timers w = [(ms, AfterSound c)] →
  length (cl_tasks c) ≤ cl_currentTaskIndex c + 1 →
  let w' := fireTimer letter w in
  gameFinished (game w') = true
  ∧ finalStars (game w') = stars (finalFailedCount c)
  ∧ failedStepsCount (game w') = failedStepsCount (game w)
  ∧ completedSteps (game w') = completedSteps (game w)
  ∧ localStorage w'
    = saveLetterScore letter (stars (finalFailedCount c)) (localStorage w).
Proof.
  intros Ht Hlast. unfold fireTimer. rewrite Ht. simpl.
  unfold afterSound. rewrite decide_True by done. done.
Qed.

Lemma fireTimer_afterSound_next (w : World) ms c :
  timers w = [(ms, AfterSound c)] →
  cl_currentTaskIndex c + 1 < length (cl_tasks c) →
  let w' := fireTimer letter w in
  gridState (game w') = ∅
  ∧ moveCount (game w') = 0
  ∧ currentTaskIndex (game w') = cl_currentTaskIndex c + 1
  ∧ isProcessingSuccess (game w') = false
  ∧ failedStepsCount (game w') = failedStepsCount (game w)
  ∧ timers w' = []
  ∧ localStorage w' = localStorage w.
Proof.
  intros Ht Hnext. unfold fireTimer. rewrite Ht. simpl.
  unfold afterSound. rewrite decide_False by lia.
  unfold announceTask. destruct (cl_tasks c !! _); done.
Qed.

Lemma loadProgress_saveLetterScore (ls : Storage) (n : nat) (l : jsstring) :
  loadProgress (saveLetterScore letter n ls) !! l
  = if decide (l = letter) then Some n else loadProgress ls !! l.
Proof.
  unfold saveLetterScore. simpl. case_decide as E.
  - subst. apply lookup_insert_eq.
  - by apply lookup_insert_ne.
Qed.

End Choreography.

(** C8: when a drag end completes the last task, the two timers of the
    choreography finish the game with the stars of the final failed-steps
    count, the failure of the last task included, and write them under the
    letter over whatever was stored, leaving the other letters as they were.
    A session of six failed steps started with three stars on record ends
    with zero stars recorded for the letter. *)
Theorem final_task_persists_rating :
  (∀ rows cols toLowerCase LEARNING_DATA letter (w : World) data over env t,
     timers w = [] →
     awaitingInput (game w) = true →
     tasks (game w) !! currentTaskIndex (game w) = Some t →
     length (tasks (game w)) ≤ currentTaskIndex (game w) + 1 →
     isProcessingSuccess
       (game (dispatch rows cols toLowerCase LEARNING_DATA letter w
                (DragEnd data over env))) = true →
     let w' := run rows cols toLowerCase LEARNING_DATA letter w
                 [DragEnd data over env; TimerFires; TimerFires] in
     failedStepsCount (game w')
     = failedStepsCount (game w) + (if isFailedStep (game w) t then 1 else 0)
     ∧ gameFinished (game w') = true
     ∧ finalStars (game w') = stars (failedStepsCount (game w'))
     ∧ loadProgress (localStorage w') !! letter
       = Some (stars (failedStepsCount (game w')))
     ∧ (∀ l, l ≠ letter →
             loadProgress (localStorage w') !! l = loadProgress (localStorage w) !! l))
  ∧ (let w := play (started earlier_progress) six_failed_rounds in
     loadProgress earlier_progress !! letter_A = Some 3
     ∧ failedStepsCount (game w) = 6
     ∧ gameFinished (game w) = true
     ∧ finalStars (game w) = 0
     ∧ loadProgress (localStorage w) !! letter_A = Some 0
     ∧ loadProgress (localStorage w) !! [CYR_O] = Some 2).
Proof.
  split; [|by vm_compute].
  intros rows cols toLowerCase LD letter w data over env t Htm Ha Ht Hlast Hlock.
  simpl in Hlock.
  destruct (commits (game w) data over env) as [next|] eqn:Hc.
  - destruct (handleDragEnd_commit rows cols toLowerCase w data over env next t Hc Ht)
      as (_ & _ & Hp & Hfsc & _ & Htm1 & _ & _ & _ & _ & Hls1).
    rewrite Hp in Hlock. rewrite Hlock in Htm1, Hfsc. rewrite Htm in Htm1.
    simpl in Htm1, Hfsc.
    set (w1 := handleDragEnd rows cols toLowerCase (game w) data over env w) in *.
    destruct (fireTimer_afterSpeak letter w1 _ _ Htm1)
      as (Htm2 & Hfsc2 & _ & _ & _ & _ & Hls2).
    set (w2 := fireTimer letter w1) in *.
    destruct (fireTimer_afterSound_last letter w2 _ _ Htm2 Hlast)
      as (Hfin & Hstars & Hfsc3 & _ & Hls3).
    change (run rows cols toLowerCase LD letter w
              [DragEnd data over env; TimerFires; TimerFires])
      with (fireTimer letter w2).
    set (w3 := fireTimer letter w2) in *.
    assert (Hcount : finalFailedCount
              (mkSuccessClosure (tasks (game w)) (currentTaskIndex (game w))
                 (failedStepsCount (game w)) (isFailedStep (game w) t))
            = failedStepsCount (game w3)).
    { rewrite Hfsc3, Hfsc2, Hfsc. unfold finalFailedCount. simpl.
      destruct (isFailedStep (game w) t); lia. }
    rewrite Hcount in Hstars, Hls3.
    split; [by rewrite Hfsc3, Hfsc2, Hfsc|]. split; [done|]. split; [done|].
    rewrite Hls3, Hls2, Hls1. split.
    + rewrite loadProgress_saveLetterScore. by rewrite decide_True.
    + intros l Hl. rewrite loadProgress_saveLetterScore. by rewrite decide_False.
  - destruct (handleDragEnd_no_commit rows cols toLowerCase w data over env Hc)
      as (_ & _ & Hp & _).
    destruct (awaitingInput_unlocked _ Ha) as [Hu _]. congruence.
Qed.

Lemma final_task_persists_rating_witness :
  let w' := play w_before_last_move [put cyr_a 2 57; TimerFires; TimerFires] in
  failedStepsCount (game w')
  = failedStepsCount (game w_before_last_move)
    + (if isFailedStep (game w_before_last_move) (mkTask [cyr_o; cyr_s; cyr_a] Word)
       then 1 else 0)
  ∧ gameFinished (game w') = true
  ∧ finalStars (game w') = stars (failedStepsCount (game w'))
  ∧ loadProgress (localStorage w') !! letter_A
    = Some (stars (failedStepsCount (game w')))
  ∧ (∀ l, l ≠ letter_A →
          loadProgress (localStorage w') !! l
          = loadProgress (localStorage w_before_last_move) !! l).
Proof.
  apply (proj1 final_task_persists_rating 3 5 toLowerCase_ru LEARNING_DATA_A
           letter_A w_before_last_move (key cyr_a) (cell 2) (clock 57)
           (mkTask [cyr_o; cyr_s; cyr_a] Word)).
  - vm_compute. reflexivity.
  - vm_compute. reflexivity.
  - vm_compute. reflexivity.
  - vm_compute. lia.
  - vm_compute. reflexivity.
Defined.

(** ** The failure flag *)

(** [handleTaskSuccess] reads the move count of the render in which the drag
    ended, one less than the count [handleDragEnd] has just set: the step is
    failed when the count at the match exceeds the length of the clean target
    by more than four. *)
Lemma failed_step_threshold rows cols toLowerCase (w : World) data over env next t :
  commits (game w) data over env = Some next →
  tasks (game w) !! currentTaskIndex (game w) = Some t →
  checkGridForWord rows cols toLowerCase next (text t) = true →
  let w' := handleDragEnd rows cols toLowerCase (game w) data over env w in
  (failedStepsCount (game w') = failedStepsCount (game w) + 1
   ↔ length (removeDashes (text t)) + 4 < moveCount (game w'))
  ∧ (failedStepsCount (game w') = failedStepsCount (game w)
     ↔ moveCount (game w') ≤ length (removeDashes (text t)) + 4).
Proof.
  intros Hc Ht Hv.
  destruct (handleDragEnd_commit rows cols toLowerCase w data over env next t Hc Ht)
    as (_ & Hm & _ & Hf & _).
  simpl. rewrite Hm, Hf, Hv. unfold isFailedStep. simpl.
  case_bool_decide; lia.
Qed.

(** C1 (the code at the boundary): for the target "а-м", of clean length 2,
    a match on move 5 is not failed, a match on move 6 is not failed either,
    and a match on move 7 is the first to be failed. *)
Theorem match_on_sixth_move_not_failed :
  let w5 := play (started None) (stray 3 0 ++ spell [cyr_a; cyr_m] 3) in
  let w6 := play (started None) (stray 4 0 ++ spell [cyr_a; cyr_m] 4) in
  let w7 := play (started None) (stray 5 0 ++ spell [cyr_a; cyr_m] 5) in
  (isProcessingSuccess (game w5) = true ∧ moveCount (game w5) = 5
   ∧ failedStepsCount (game w5) = 0)
  ∧ (isProcessingSuccess (game w6) = true ∧ moveCount (game w6) = 6
     ∧ failedStepsCount (game w6) = 0)
  ∧ (isProcessingSuccess (game w7) = true ∧ moveCount (game w7) = 7
     ∧ failedStepsCount (game w7) = 1).
Proof. by vm_compute. Qed.

(** ** The drag gestures on the worked session *)

Lemma drag_end_counts_move_witness :
  let w' := dispatch 3 5 toLowerCase_ru LEARNING_DATA_A letter_A (started None)
              (put cyr_k 0 0) in
  gridState (game w') = {[0 := mkGridItem [cyr_k] (newId [cyr_k] (clock 0))]}
  ∧ moveCount (game w') = moveCount (game (started None)) + 1
  ∧ isProcessingSuccess (game w') = false.
Proof.
  pose proof (drag_end_counts_move 3 5 toLowerCase_ru LEARNING_DATA_A letter_A
                (started None) (key cyr_k) (cell 0) (clock 0))
    as [H _].
  assert (Hc : commits (game (started None)) (key cyr_k) (cell 0) (clock 0)
               = Some {[0 := mkGridItem [cyr_k] (newId [cyr_k] (clock 0))]})
    by (vm_compute; reflexivity).
  rewrite Hc in H. destruct H as (Hg & Hm & Hp & _).
  split; [exact Hg|]. split; [exact Hm|].
  etrans; [exact Hp|]. vm_compute. reflexivity.
Defined.

Lemma drag_swaps_tiles_witness :
  let g := gridState (game w_two_tiles) in
  let g' := gridState
              (game (dispatch 3 5 toLowerCase_ru LEARNING_DATA_A letter_A w_two_tiles
                       (DragEnd (mkDragData OriginGrid (item_char tile_k)
                                   (Some (item_id tile_k)) (Some 0))
                                (cell 1) (clock 2)))) in
  g' !! 1 = Some tile_k ∧ g' !! 0 = Some tile_o
  ∧ (∀ k, k ≠ 0 → k ≠ 1 → g' !! k = g !! k)
  ∧ (∀ t, (∃ k, g' !! k = Some t) ↔ (∃ k, g !! k = Some t))
  ∧ (unique_ids g → unique_ids g').
Proof.
  apply (proj1 drag_swaps_tiles 3 5 toLowerCase_ru LEARNING_DATA_A letter_A
           w_two_tiles 0 1 tile_k tile_o).
  - vm_compute. reflexivity.
  - split; [vm_compute; reflexivity|]. split; [discriminate|reflexivity].
  - vm_compute. reflexivity.
  - split; reflexivity.
  - lia.
Defined.

Lemma unique_ids_singleton (i : nat) (t : GridItem) :
  unique_ids ({[i := t]} : gmap nat GridItem).
Proof.
  intros k1 k2 a b H1 H2 _.
  apply lookup_singleton_Some in H1 as [<- _].
  by apply lookup_singleton_Some in H2 as [<- _].
Qed.

(** C4 (as stated) fails for keyboard tiles: two drops of the same letter
    under the same clock reading and random draw receive the same id, which
    then occupies two cells. *)
Lemma keyboard_drop_duplicates_id :
  let w := play (started None) [put cyr_k 0 7] in
  let w' := play w [put cyr_k 1 7] in
  unique_ids (gridState (game w)) ∧ ¬ unique_ids (gridState (game w')).
Proof.
  split.
  - assert (E : gridState (game (play (started None) [put cyr_k 0 7]))
                = {[0 := mkGridItem [cyr_k] (newId [cyr_k] (clock 7))]})
      by (vm_compute; reflexivity).
    rewrite E. apply unique_ids_singleton.
  - intros Hu.
    assert (E : 0 = 1); [|discriminate].
    apply (Hu 0 1 (mkGridItem [cyr_k] (newId [cyr_k] (clock 7)))
                  (mkGridItem [cyr_k] (newId [cyr_k] (clock 7))));
      [vm_compute; reflexivity..|reflexivity].
Qed.

Lemma data_A_shuffle :
  shuffle_result (syllables data_A)
    [[cyr_a; DASH; cyr_s]; [cyr_a; DASH; cyr_m]; [cyr_m; DASH; cyr_a]].
Proof.
  unfold shuffle_result, data_A. simpl.
  symmetry. apply (Permutation_cons_append [_; _]).
Qed.

Lemma initEffect_six_tasks_witness :
  let s := game (initEffect LEARNING_DATA_A letter_A
                   [[cyr_a; DASH; cyr_s]; [cyr_a; DASH; cyr_m]; [cyr_m; DASH; cyr_a]]
                   (words data_A) (initialWorld None)) in
  (∃ s1 s2 s3 w1 w2 w3,
     tasks s = [mkTask s1 Syllable; mkTask s2 Syllable; mkTask s3 Syllable;
                mkTask w1 Word; mkTask w2 Word; mkTask w3 Word]
     ∧ NoDup [s1; s2; s3] ∧ NoDup [w1; w2; w3]
     ∧ s1 ∈ syllables data_A ∧ s2 ∈ syllables data_A ∧ s3 ∈ syllables data_A
     ∧ w1 ∈ words data_A ∧ w2 ∈ words data_A ∧ w3 ∈ words data_A)
  ∧ length (tasks s) = 6
  ∧ currentTaskIndex s = 0 ∧ moveCount s = 0 ∧ failedStepsCount s = 0
  ∧ completedSteps s = [false; false; false; false; false; false]
  ∧ gridState s = ∅
  ∧ isProcessingSuccess s = false ∧ gameFinished s = false.
Proof.
  apply (initEffect_six_tasks LEARNING_DATA_A letter_A data_A).
  - reflexivity.
  - apply (bool_decide_unpack _). vm_compute. exact I.
  - simpl. lia.
  - apply (bool_decide_unpack _). vm_compute. exact I.
  - simpl. lia.
  - exact data_A_shuffle.
  - reflexivity.
Defined.

(** * Further properties *)

(** ** The progress store *)

(** X1: of two writes to the store the later one wins for its letter, and
    writes for different letters can be done in either order. *)
Theorem saveLetterScore_twice (l1 l2 : jsstring) (a b : nat) (ls : Storage) :
  saveLetterScore l1 a (saveLetterScore l2 b ls)
  = if decide (l1 = l2) then saveLetterScore l1 a ls
    else saveLetterScore l2 b (saveLetterScore l1 a ls).
Proof.
  unfold saveLetterScore. simpl. rewrite insert_insert.
  by destruct (decide (l1 = l2)).
Qed.

(** X2: a store that is absent or that [JSON.parse] rejects is replaced by
    one that holds the new score and nothing else. *)
Theorem saveLetterScore_unreadable (l : jsstring) (n : nat) (ls : Storage) :
  ls = None ∨ ls = Some Unparsable →
  loadProgress (saveLetterScore l n ls) = {[l := n]}
  ∧ ∀ l', l' ≠ l → loadProgress (saveLetterScore l n ls) !! l' = None.
Proof.
  intros [-> | ->]; unfold saveLetterScore; simpl; rewrite insert_empty;
    (split; [done|]); intros l' Hl'; by rewrite lookup_singleton_ne.
Qed.

Lemma saveLetterScore_unreadable_witness :
  loadProgress (saveLetterScore letter_A 2 (Some Unparsable)) = {[letter_A := 2]}
  ∧ ∀ l', l' ≠ letter_A →
          loadProgress (saveLetterScore letter_A 2 (Some Unparsable)) !! l' = None.
Proof.
  apply (saveLetterScore_unreadable letter_A 2 (Some Unparsable)).
  right. reflexivity.
Defined.

(** ** The score function *)

(** X3: more failed steps never earn more stars, and no count earns more
    than three. *)
Theorem stars_antitone (n m : nat) :
  (n ≤ m → stars m ≤ stars n) ∧ stars n ≤ 3.
Proof. unfold stars. repeat case_decide; lia. Qed.

(** ** The match detector: what it depends on *)

Lemma removeDashes_idemp (s : jsstring) : removeDashes (removeDashes s) = removeDashes s.
Proof. unfold removeDashes. by apply list_filter_filter_l. Qed.

Lemma rowChars_ext rows cols toLowerCase (g1 g2 : GridState) r :
  (∀ k, k < rows * cols → item_char <$> g1 !! k = item_char <$> g2 !! k) →
  r < rows →
  rowChars cols toLowerCase g1 r = rowChars cols toLowerCase g2 r.
Proof.
  intros Hk Hr. unfold rowChars. apply map_ext_in. intros c Hc.
  apply in_seq in Hc.
  assert (Hlt : r * cols + c < rows * cols) by nia.
  specialize (Hk _ Hlt).
  destruct (g1 !! (r * cols + c)), (g2 !! (r * cols + c)); simpl in Hk;
    congruence.
Qed.

(** X4: the verdict depends only on the characters in the cells of the
    scanned rows and on the target without its dashes: tile ids, tiles beyond
    the last row and dashes in the target play no part. *)
Theorem checkGridForWord_depends_on rows cols toLowerCase
    (g1 g2 : GridState) (W1 W2 : jsstring) :
  (∀ k, k < rows * cols → item_char <$> g1 !! k = item_char <$> g2 !! k) →
  removeDashes W1 = removeDashes W2 →
  checkGridForWord rows cols toLowerCase g1 W1
  = checkGridForWord rows cols toLowerCase g2 W2.
Proof.
  intros Hk HW. unfold checkGridForWord, cleanTarget. rewrite HW.
  apply eq_true_iff_eq. rewrite !existsb_exists.
  split; intros (r & Hr & Hs); exists r; (split; [done|]);
    apply in_seq in Hr.
  - by rewrite <- (rowChars_ext rows cols toLowerCase g1 g2 r) by (done || lia).
  - by rewrite (rowChars_ext rows cols toLowerCase g1 g2 r) by (done || lia).
Qed.

Lemma checkGridForWord_depends_on_witness :
  checkGridForWord 3 5 toLowerCase_ru grid_sok [cyr_s; DASH; cyr_o; DASH; cyr_k]
  = checkGridForWord 3 5 toLowerCase_ru
      (<[15 := mkGridItem [cyr_a] (lit "far")]>
         (<[0 := mkGridItem [cyr_s] (lit "other")]> grid_sok))
      [cyr_s; cyr_o; cyr_k].
Proof.
  apply checkGridForWord_depends_on; [|reflexivity].
  intros k Hk.
  rewrite lookup_insert_ne by lia.
  destruct (decide (k = 0)) as [->|Hk0]; [reflexivity|].
  by rewrite lookup_insert_ne by done.
Defined.

(** X5: a target whose clean form is longer than a row matches on no grid. *)
Theorem checkGridForWord_long_target rows cols toLowerCase (g : GridState) W :
  cols < length (cleanTarget toLowerCase W) →
  checkGridForWord rows cols toLowerCase g W = false.
Proof.
  intros Hlen. apply not_true_iff_false. intros H.
  apply checkGridForWord_rows in H as (r & _ & Hs).
  unfold scanRow in Hs. rewrite rowChars_length in Hs.
  by rewrite decide_False in Hs by lia.
Qed.

Lemma checkGridForWord_long_target_witness :
  checkGridForWord 3 2 toLowerCase_ru grid_sok [cyr_s; cyr_o; cyr_k] = false.
Proof.
  apply checkGridForWord_long_target. vm_compute. lia.
Defined.

(** ** The drop logic: tiles on the grid *)

Lemma not_is_cell_elsewhere (g : GridState) data o env :
  drag_origin data = OriginKeyboard → (∀ j, ¬ is_cell o j) →
  dropLogic g data o env = (g, false).
Proof.
  intros Ho Hn. apply dropLogic_elsewhere.
  - by rewrite Ho.
  - destruct (startsWith (lit "cell-") (over_id o)) eqn:Hc; [|by left].
    destruct (over_index o) as [j|] eqn:Hj; [|by right].
    destruct (Hn j). by split.
Qed.

Lemma grid_to_cell_size (g : GridState) i j A (t : GridItem) :
  g !! i = Some A → i ≠ j →
  size (<[j := t]> (match g !! j with
                     | Some e => <[i := e]> (delete i g)
                     | None => delete i g
                     end)) = size g.
Proof.
  intros Hi Hij.
  assert (Hpos : size g ≠ 0) by (apply (map_size_ne_0_lookup_2 g i); eauto).
  assert (Hdel : size (delete i g) = pred (size g))
    by (apply map_size_delete_Some; eauto).
  destruct (g !! j) as [B|] eqn:Hj.
  - rewrite map_size_insert_Some.
    + rewrite map_size_insert_None by apply lookup_delete_eq. lia.
    + rewrite lookup_insert_ne by done. rewrite lookup_delete_ne by done. eauto.
  - rewrite map_size_insert_None by (by rewrite lookup_delete_ne). lia.
Qed.

(** X6: a gesture changes the number of tiles on the grid by at most one: a
    grid tile dropped on the keyboard area leaves one tile less, a grid tile
    dropped anywhere else leaves as many, a keyboard tile dropped on a cell
    adds one when the cell was empty and none when it replaced a tile, and a
    keyboard tile dropped elsewhere leaves the grid as it was. *)
Theorem dropLogic_tile_count (g : GridState) data o env :
  (drag_origin data = OriginGrid → ∃ i A, payload_of g i A data) →
  let next := (dropLogic g data o env).1 in
  (drag_origin data = OriginGrid → over_id o = lit "keyboard-area" →
   size next + 1 = size g)
  ∧ (drag_origin data = OriginGrid → over_id o ≠ lit "keyboard-area" →
     size next = size g)
  ∧ (drag_origin data = OriginKeyboard → ∀ j, is_cell o j →
     size next = size g + (match g !! j with Some _ => 0 | None => 1 end))
  ∧ (drag_origin data = OriginKeyboard → (∀ j, ¬ is_cell o j) → next = g).
Proof.
  intros Hp next. unfold next. repeat split.
  - intros Ho Hk. destruct (Hp Ho) as (i & A & Hi & _ & ->).
    rewrite dropLogic_on_keyboard_area by (done || by apply bool_decide_eq_true_2).
    simpl. rewrite map_size_delete_Some by eauto.
    assert (size g ≠ 0) by (apply (map_size_ne_0_lookup_2 g i); eauto). lia.
  - intros Ho Hk. destruct (Hp Ho) as (i & A & Hpay).
    destruct (over_cases data o) as [[_ Hk']|[[j Hcell]|[Hk' Hc]]].
    + by apply bool_decide_eq_true_1 in Hk'.
    + destruct Hpay as (Hi & _ & ->).
      rewrite (dropLogic_on_cell _ _ _ _ _ Hcell). simpl.
      case_bool_decide as Hij; [|done]. simpl.
      by apply grid_to_cell_size with A.
    + by rewrite dropLogic_elsewhere.
  - intros Ho j Hcell. rewrite (dropLogic_on_cell _ _ _ _ _ Hcell), Ho. simpl.
    rewrite map_size_insert. destruct (g !! j); simpl; lia.
  - intros Ho Hn. by rewrite not_is_cell_elsewhere.
Qed.

Lemma dropLogic_tile_count_witness :
  let g := gridState (game w_two_tiles) in
  let data := mkDragData OriginGrid (item_char tile_k) (Some (item_id tile_k)) (Some 0) in
  size (dropLogic g data KeyboardArea (clock 3)).1 + 1 = size g.
Proof.
  refine (proj1 (dropLogic_tile_count (gridState (game w_two_tiles))
                   (mkDragData OriginGrid (item_char tile_k) (Some (item_id tile_k))
                      (Some 0))
                   KeyboardArea (clock 3) _) eq_refl eq_refl).
  intros _. exists 0, tile_k.
  split; [vm_compute; reflexivity|]. split; [discriminate|reflexivity].
Defined.

Lemma startsWith_app (p s : jsstring) : startsWith p (p ++ s) = true.
Proof.
  induction p as [|a p IH]; [by destruct s|].
  simpl. by rewrite bool_decide_eq_true_2.
Qed.

Lemma DroppableCell_is_cell (j : nat) : is_cell (DroppableCell j) j.
Proof. split; [apply startsWith_app|done]. Qed.

Section DragEndMore.

Variables GRID_ROWS GRID_COLS : nat.
Variable toLowerCase : jsstring → jsstring.
Variable LEARNING_DATA : jsstring → option LetterData.
Variable letter : jsstring.

Local Abbreviation step :=
  (dispatch GRID_ROWS GRID_COLS toLowerCase LEARNING_DATA letter).

Lemma handleDragEnd_moveCount (w : World) data over env :
  moveCount (game (step w (DragEnd data over env)))
  = moveCount (game w)
    + (match commits (game w) data over env with Some _ => 1 | None => 0 end).
Proof.
  simpl. destruct (commits (game w) data over env) as [next|] eqn:Hc.
  - destruct (tasks (game w) !! currentTaskIndex (game w)) as [t|] eqn:Ht.
    + by destruct (handleDragEnd_commit GRID_ROWS GRID_COLS toLowerCase w data over
                     env next t Hc Ht) as (_ & -> & _).
    + by destruct (handleDragEnd_commit_no_task GRID_ROWS GRID_COLS toLowerCase w
                     data over env next Hc Ht) as (_ & -> & _).
  - destruct (handleDragEnd_no_commit GRID_ROWS GRID_COLS toLowerCase w data over
                env Hc) as (_ & -> & _). lia.
Qed.

(** X7: while the session takes input, a grid tile dropped on the keyboard
    area is removed from its cell and the drop counts as a move, also when
    the payload names no cell; a keyboard tile dropped back on the keyboard
    area changes nothing and costs no move. *)
Theorem drop_on_keyboard_area (w : World) data env :
  awaitingInput (game w) = true →
  let w' := step w (DragEnd data (Some KeyboardArea) env) in
  match drag_origin data with
  | OriginGrid =>
      gridState (game w')
      = match drag_index data with
        | Some index => delete index (gridState (game w))
        | None => gridState (game w)
        end
      ∧ moveCount (game w') = moveCount (game w) + 1
  | OriginKeyboard =>
      gridState (game w') = gridState (game w)
      ∧ moveCount (game w') = moveCount (game w)
  end.
Proof.
  intros Ha w'. unfold w'. rewrite handleDragEnd_moveCount. simpl.
  rewrite handleDragEnd_grid. unfold commits. rewrite Ha.
  destruct (drag_origin data) eqn:Ho.
  - rewrite dropLogic_on_keyboard_area by done. done.
  - rewrite dropLogic_elsewhere; [|by rewrite Ho|by left]. simpl. split; [done|lia].
Qed.

(** X8: every rendered cell is a cell for the drop logic: while the session
    takes input, a keyboard tile dropped on the droppable of cell [j] is
    placed in cell [j] with the character of the key, in place of whatever
    was there, every other cell keeps its content and one move is counted. *)
Theorem keyboard_drop_on_cell (w : World) data j env :
  awaitingInput (game w) = true →
  drag_origin data = OriginKeyboard →
  let w' := step w (DragEnd data (Some (DroppableCell j)) env) in
  gridState (game w') !! j
  = Some (mkGridItem (drag_char data) (newId (drag_char data) env))
  ∧ (∀ k, k ≠ j → gridState (game w') !! k = gridState (game w) !! k)
  ∧ moveCount (game w') = moveCount (game w) + 1.
Proof.
  intros Ha Ho w'. unfold w'. rewrite handleDragEnd_moveCount. simpl.
  rewrite handleDragEnd_grid. unfold commits. rewrite Ha.
  rewrite (dropLogic_on_cell _ _ _ _ _ (DroppableCell_is_cell j)), Ho. simpl.
  split; [apply lookup_insert_eq|]. split; [|done].
  intros k Hk. by apply lookup_insert_ne.
Qed.

End DragEndMore.

Lemma drop_on_keyboard_area_witness :
  let w' := dispatch 3 5 toLowerCase_ru LEARNING_DATA_A letter_A w_two_tiles
              (DragEnd (mkDragData OriginGrid (item_char tile_k)
                          (Some (item_id tile_k)) (Some 0))
                       (Some KeyboardArea) (clock 3)) in
  gridState (game w') = delete 0 (gridState (game w_two_tiles))
  ∧ moveCount (game w') = moveCount (game w_two_tiles) + 1.
Proof.
  apply (drop_on_keyboard_area 3 5 toLowerCase_ru LEARNING_DATA_A letter_A
           w_two_tiles
           (mkDragData OriginGrid (item_char tile_k) (Some (item_id tile_k)) (Some 0))
           (clock 3)).
  vm_compute. reflexivity.
Defined.

Lemma keyboard_drop_on_cell_witness :
  let w' := dispatch 3 5 toLowerCase_ru LEARNING_DATA_A letter_A w_two_tiles
              (DragEnd (key cyr_a) (Some (DroppableCell 1)) (clock 3)) in
  gridState (game w') !! 1
  = Some (mkGridItem [cyr_a] (newId [cyr_a] (clock 3)))
  ∧ (∀ k, k ≠ 1 → gridState (game w') !! k = gridState (game w_two_tiles) !! k)
  ∧ moveCount (game w') = moveCount (game w_two_tiles) + 1.
Proof.
  apply (keyboard_drop_on_cell 3 5 toLowerCase_ru LEARNING_DATA_A letter_A
           w_two_tiles (key cyr_a) 1 (clock 3)).
  - vm_compute. reflexivity.
  - reflexivity.
Defined.

(** ** The session as a whole *)

Lemma flags_arraySet (k : nat) : k < 6 → arraySet k true (flags k) = flags (k + 1).
Proof. intros Hk. do 6 (destruct k as [|k]; [reflexivity|]). lia. Qed.

Lemma announceTask_fields (t : option Task) (w : World) :
  game (announceTask t w) = game w
  ∧ localStorage (announceTask t w) = localStorage w
  ∧ timers (announceTask t w) = timers w.
Proof. unfold announceTask. by destruct t. Qed.

Section Session.

Variables GRID_ROWS GRID_COLS : nat.
Variable toLowerCase : jsstring → jsstring.
Variable LEARNING_DATA : jsstring → option LetterData.
Variable letter : jsstring.

Local Abbreviation step :=
  (dispatch GRID_ROWS GRID_COLS toLowerCase LEARNING_DATA letter).
Local Abbreviation runs :=
  (run GRID_ROWS GRID_COLS toLowerCase LEARNING_DATA letter).
Local Abbreviation inv := (session_inv letter).

Lemma handleDragStart_same (w : World) data rect :
  same_session w (step w (DragStart data rect))
  ∧ gridState (game (step w (DragStart data rect))) = gridState (game w)
  ∧ moveCount (game (step w (DragStart data rect))) = moveCount (game w).
Proof.
  simpl. unfold handleDragStart, same_session.
  destruct (gameFinished (game w) || isProcessingSuccess (game w)); [done|].
  destruct rect; destruct (bool_decide _); done.
Qed.

Lemma handleDragEnd_fields (w : World) data over env :
  let w' := step w (DragEnd data over env) in
  tasks (game w') = tasks (game w)
  ∧ currentTaskIndex (game w') = currentTaskIndex (game w)
  ∧ completedSteps (game w') = completedSteps (game w)
  ∧ gameFinished (game w') = gameFinished (game w)
  ∧ finalStars (game w') = finalStars (game w)
  ∧ localStorage w' = localStorage w.
Proof.
  simpl. unfold handleDragEnd, handleTaskSuccess.
  destruct (gameFinished (game w) || isProcessingSuccess (game w)); [done|].
  destruct over as [o|]; [|done].
  destruct (dropLogic _ _ _ _) as [next did]. destruct did; [|done].
  destruct (tasks (game w) !! _); [destruct (checkGridForWord _ _ _ _ _)|];
    [destruct (bool_decide _)| |]; done.
Qed.

Lemma handleDragEnd_same (w : World) data over env :
  commits (game w) data over env = None →
  same_session w (step w (DragEnd data over env)).
Proof.
  intros Hc.
  destruct (handleDragEnd_no_commit GRID_ROWS GRID_COLS toLowerCase w data over env Hc)
    as (_ & _ & Hp & Hf & _ & Htm & _).
  destruct (handleDragEnd_fields w data over env) as (? & ? & ? & ? & ? & ?).
  unfold same_session. simpl in *. done.
Qed.

Lemma reannounce_same (w : World) : same_session w (step w ClickReannounce).
Proof.
  simpl. destruct (reannounceRendered (game w)); [|done].
  unfold onReannounceClick, same_session.
  destruct (announceTask_fields (tasks (game w) !! currentTaskIndex (game w)) w)
    as (-> & -> & ->).
  done.
Qed.

Lemma session_phase_same ls0 T (w w' : World) :
  same_session w w' → session_phase letter ls0 T w → session_phase letter ls0 T w'.
Proof.
  intros (Ht & Hi & Hf & Hc & Hp & Hg & Hs & Hl & Htm) Hph.
  destruct Hph as [? ? ? ? ? ? ?|pre c ? ? ? ? Hcl ? ?|pre c ? ? ? ? Hcl ? ?|? ? ? ? ? ? ? ?].
  - apply PhaseAwaiting; congruence.
  - apply (PhaseSpoken _ _ _ _ pre c); try congruence.
    unfold closure_of in *. rewrite Hi, Hf. done.
  - apply (PhaseSounded _ _ _ _ pre c); try congruence.
    unfold closure_of in *. rewrite Hi, Hf. done.
  - apply PhaseFinished; congruence.
Qed.

Lemma session_inv_same ls0 T (w w' : World) :
  same_session w w' → inv ls0 T w → inv ls0 T w'.
Proof.
  intros Hs (Ht & Hlen & Hph). split; [|split; [done|]].
  - destruct Hs as (-> & _). done.
  - by apply session_phase_same with w.
Qed.

Lemma fireTimer_cons (w : World) ms cb rest :
  timers w = (ms, cb) :: rest →
  fireTimer letter w
  = runCallback letter cb (mkWorld (game w) (localStorage w) rest (calls w)).
Proof. intros Ht. unfold fireTimer. by rewrite Ht. Qed.

Lemma afterSpeak_fields (c : SuccessClosure) (w : World) :
  let w' := afterSpeak c w in
  timers w' = timers w ++ [(2000, AfterSound c)]
  ∧ completedSteps (game w')
    = arraySet (cl_currentTaskIndex c) true (completedSteps (game w))
  ∧ tasks (game w') = tasks (game w)
  ∧ currentTaskIndex (game w') = currentTaskIndex (game w)
  ∧ failedStepsCount (game w') = failedStepsCount (game w)
  ∧ isProcessingSuccess (game w') = isProcessingSuccess (game w)
  ∧ gameFinished (game w') = gameFinished (game w)
  ∧ finalStars (game w') = finalStars (game w)
  ∧ gridState (game w') = gridState (game w)
  ∧ moveCount (game w') = moveCount (game w)
  ∧ localStorage w' = localStorage w.
Proof. unfold afterSpeak. eval_actions. repeat split; reflexivity. Qed.

Lemma afterSound_finish_fields (c : SuccessClosure) (w : World) :
  length (cl_tasks c) ≤ cl_currentTaskIndex c + 1 →
  let w' := afterSound letter c w in
  gameFinished (game w') = true
  ∧ finalStars (game w') = stars (finalFailedCount c)
  ∧ localStorage w'
    = saveLetterScore letter (stars (finalFailedCount c)) (localStorage w)
  ∧ timers w' = timers w
  ∧ tasks (game w') = tasks (game w)
  ∧ currentTaskIndex (game w') = currentTaskIndex (game w)
  ∧ failedStepsCount (game w') = failedStepsCount (game w)
  ∧ completedSteps (game w') = completedSteps (game w)
  ∧ isProcessingSuccess (game w') = isProcessingSuccess (game w)
  ∧ gridState (game w') = gridState (game w)
  ∧ moveCount (game w') = moveCount (game w).
Proof.
  intros Hlast. unfold afterSound. rewrite decide_True by done.
  unfold finishGame, finalFailedCount. eval_actions. repeat split; reflexivity.
Qed.

Lemma afterSound_next_fields (c : SuccessClosure) (w : World) :
  cl_currentTaskIndex c + 1 < length (cl_tasks c) →
  let w' := afterSound letter c w in
  gridState (game w') = ∅
  ∧ moveCount (game w') = 0
  ∧ currentTaskIndex (game w') = cl_currentTaskIndex c + 1
  ∧ isProcessingSuccess (game w') = false
  ∧ timers w' = timers w
  ∧ localStorage w' = localStorage w
  ∧ tasks (game w') = tasks (game w)
  ∧ failedStepsCount (game w') = failedStepsCount (game w)
  ∧ completedSteps (game w') = completedSteps (game w)
  ∧ gameFinished (game w') = gameFinished (game w)
  ∧ finalStars (game w') = finalStars (game w).
Proof.
  intros Hnext. unfold afterSound. rewrite decide_False by lia.
  destruct (cl_tasks c !! (cl_currentTaskIndex c + 1));
    eval_actions; repeat split; reflexivity.
Qed.

Lemma init_timer_nil : init_timer [].
Proof. by left. Qed.

Lemma init_timer_cons ms cb rest :
  init_timer ((ms, cb) :: rest) → rest = [] ∧ ∃ t, cb = AnnounceFirst t.
Proof. intros [?|(t & [= -> -> ->])]; [done|eauto]. Qed.

Lemma closure_final_count T (s : GameState) (c : SuccessClosure) :
  closure_of T s c → failedStepsCount s ≤ currentTaskIndex s + 1.
Proof.
  intros (_ & _ & _ & Hf & ->). unfold finalFailedCount.
  destruct (cl_isFailedStep c); lia.
Qed.

Lemma inv_DragEnd ls0 T (w : World) data over env :
  inv ls0 T w → inv ls0 T (step w (DragEnd data over env)).
Proof.
  intros Hinv.
  destruct (commits (game w) data over env) as [next|] eqn:Hc.
  2: { eapply session_inv_same; [|done]. by apply handleDragEnd_same. }
  assert (Ha : awaitingInput (game w) = true).
  { unfold commits in Hc. by destruct (awaitingInput (game w)). }
  destruct (awaitingInput_unlocked _ Ha) as [Hp Hf].
  destruct (handleDragEnd_fields w data over env)
    as (Ht' & Hi' & Hc' & Hg' & Hs' & Hl').
  destruct Hinv as (HT & Hlen & Hph).
  split; [by rewrite Ht'|]. split; [done|].
  destruct Hph as [_ _ Hpre Hidx Hfail Hcs Hls|pre c ? Hq|pre c ? Hq|Hq];
    try congruence.
  destruct (tasks (game w) !! currentTaskIndex (game w)) as [t|] eqn:Ht.
  - destruct (handleDragEnd_commit GRID_ROWS GRID_COLS toLowerCase w data over env
                next t Hc Ht)
      as (_ & _ & Hp1 & Hf1 & _ & Htm1 & _).
    simpl in *.
    destruct (checkGridForWord GRID_ROWS GRID_COLS toLowerCase next (text t)).
    + apply (PhaseSpoken _ _ _ _ (timers w)
               (mkSuccessClosure (tasks (game w)) (currentTaskIndex (game w))
                  (failedStepsCount (game w)) (isFailedStep (game w) t)));
        try congruence.
      unfold closure_of. simpl. rewrite Hi', Hf1.
      apply lookup_lt_Some in Ht. rewrite HT in Ht.
      repeat split; try done. unfold finalFailedCount. simpl.
      by destruct (isFailedStep (game w) t).
    + apply PhaseAwaiting; try congruence.
      * rewrite Htm1. by rewrite app_nil_r.
      * rewrite Hf1, Hi'. simpl. lia.
  - destruct (handleDragEnd_commit_no_task GRID_ROWS GRID_COLS toLowerCase w data
                over env next Hc Ht)
      as (_ & _ & Hp1 & Hf1 & _ & Htm1).
    simpl in *. apply PhaseAwaiting; congruence.
Qed.

Lemma inv_TimerFires ls0 T (w : World) :
  inv ls0 T w → inv ls0 T (step w TimerFires).
Proof.
  intros (HT & Hlen & Hph). cbn [dispatch].
  destruct (timers w) as [|[ms cb] rest] eqn:Htm.
  { unfold fireTimer. rewrite Htm. done. }
  rewrite (fireTimer_cons w ms cb rest Htm).
  destruct Hph as [Hg Hp Hpre Hidx Hfail Hcs Hls
                  |pre c Hg Hp Hpre Hq Hcl Hcs Hls
                  |pre c Hg Hp Hpre Hq Hcl Hcs Hls
                  |Hg Hp Hpre Hidx Hfail Hcs Hst Hls].
  - rewrite Htm in Hpre.
    apply init_timer_cons in Hpre as (-> & t & ->). cbn [runCallback].
    destruct (announceTask_fields t (mkWorld (game w) (localStorage w) [] (calls w)))
      as (Eg & El & Et).
    cbn [game localStorage timers calls] in Eg, El, Et.
    split; [by rewrite Eg|]. split; [done|].
    apply PhaseAwaiting; rewrite ?Eg, ?El, ?Et;
      [done|done|apply init_timer_nil|done|done|done|done].
  - destruct pre as [|[ms' cb'] pre'].
    + simpl in Hq. rewrite Htm in Hq. injection Hq as -> -> ->. cbn [runCallback].
      destruct (afterSpeak_fields c (mkWorld (game w) (localStorage w) [] (calls w)))
        as (Et & Ec & Eta & Ei & Ef & Ep & Egf & Es & _ & _ & El).
      cbn [game localStorage timers calls] in Et, Ec, Eta, Ei, Ef, Ep, Egf, Es, El.
      split; [by rewrite Eta|]. split; [done|].
      destruct Hcl as (Hc1 & Hc2 & Hc3 & Hc4 & Hc5).
      apply (PhaseSounded _ _ _ _ [] c);
        [by rewrite Egf|by rewrite Ep|apply init_timer_nil|done| |
         |by rewrite El].
      * unfold closure_of. by rewrite Ei, Ef.
      * rewrite Ec, Ei, Hc2, Hcs. apply flags_arraySet. lia.
    + apply init_timer_cons in Hpre as (-> & t & ->).
      simpl in Hq. rewrite Htm in Hq. injection Hq as -> -> ->. cbn [runCallback].
      destruct (announceTask_fields t
                  (mkWorld (game w) (localStorage w) [(1000, AfterSpeak c)] (calls w)))
        as (Eg & El & Et).
      cbn [game localStorage timers calls] in Eg, El, Et.
      split; [by rewrite Eg|]. split; [done|].
      apply (PhaseSpoken _ _ _ _ [] c); rewrite ?Eg, ?El, ?Et;
        [done|done|apply init_timer_nil|done|done|done|done].
  - destruct pre as [|[ms' cb'] pre'].
    + simpl in Hq. rewrite Htm in Hq. injection Hq as -> -> ->. cbn [runCallback].
      destruct Hcl as (Hc1 & Hc2 & Hc3 & Hc4 & Hc5).
      assert (Hfin : finalFailedCount c ≤ cl_failedStepsCount c + 1)
        by (unfold finalFailedCount; destruct (cl_isFailedStep c); lia).
      destruct (decide (length (cl_tasks c) ≤ cl_currentTaskIndex c + 1))
        as [Hlast|Hnext].
      * destruct (afterSound_finish_fields c
                    (mkWorld (game w) (localStorage w) [] (calls w)) Hlast)
          as (Egf & Es & El & Et & Eta & Ei & Ef & Ec & Ep & _).
        cbn [game localStorage timers calls] in Egf, Es, El, Et, Eta, Ei, Ef, Ec, Ep.
        split; [by rewrite Eta|]. split; [done|].
        rewrite Hc1, Hc2 in Hlast.
        apply PhaseFinished; rewrite ?Ei, ?Ef, ?Ec, ?Ep, ?Et;
          [done|done|apply init_timer_nil|lia|lia| | |].
        -- rewrite Hcs. f_equal. lia.
        -- by rewrite Es, Hc5.
        -- by rewrite El, Hc5, Hls.
      * destruct (afterSound_next_fields c
                    (mkWorld (game w) (localStorage w) [] (calls w)) ltac:(lia))
          as (_ & _ & Ei & Ep & Et & El & Eta & Ef & Ec & Egf & _).
        cbn [game localStorage timers calls] in Ei, Ep, Et, El, Eta, Ef, Ec, Egf.
        split; [by rewrite Eta|]. split; [done|].
        rewrite Hc1, Hc2 in Hnext.
        apply PhaseAwaiting; rewrite ?Ei, ?Ef, ?Ec, ?Ep, ?Et, ?Egf, ?El, ?Hc2;
          [done|done|apply init_timer_nil|left; lia|lia|done|done].
    + apply init_timer_cons in Hpre as (-> & t & ->).
      simpl in Hq. rewrite Htm in Hq. injection Hq as -> -> ->. cbn [runCallback].
      destruct (announceTask_fields t
                  (mkWorld (game w) (localStorage w) [(2000, AfterSound c)] (calls w)))
        as (Eg & El & Et).
      cbn [game localStorage timers calls] in Eg, El, Et.
      split; [by rewrite Eg|]. split; [done|].
      apply (PhaseSounded _ _ _ _ [] c); rewrite ?Eg, ?El, ?Et;
        [done|done|apply init_timer_nil|done|done|done|done].
  - rewrite Htm in Hpre.
    apply init_timer_cons in Hpre as (-> & t & ->). cbn [runCallback].
    destruct (announceTask_fields t (mkWorld (game w) (localStorage w) [] (calls w)))
      as (Eg & El & Et).
    cbn [game localStorage timers calls] in Eg, El, Et.
    split; [by rewrite Eg|]. split; [done|].
    apply PhaseFinished; rewrite ?Eg, ?El, ?Et;
      [done|done|apply init_timer_nil|done|done|done|done|done].
Qed.

End Session.

Section SessionRun.

Variables GRID_ROWS GRID_COLS : nat.
Variable toLowerCase : jsstring → jsstring.
Variable LEARNING_DATA : jsstring → option LetterData.
Variable letter : jsstring.

Local Abbreviation step :=
  (dispatch GRID_ROWS GRID_COLS toLowerCase LEARNING_DATA letter).
Local Abbreviation runs :=
  (run GRID_ROWS GRID_COLS toLowerCase LEARNING_DATA letter).
Local Abbreviation inv := (session_inv letter).
Local Abbreviation session' :=
  (session GRID_ROWS GRID_COLS toLowerCase LEARNING_DATA letter).

Lemma inv_Mount (ls : Storage) sy wo :
  inv ls (tasks (game (step (initialWorld ls) (Mount sy wo))))
      (step (initialWorld ls) (Mount sy wo)).
Proof.
  cbn [dispatch]. unfold initEffect, andThen.
  destruct (LEARNING_DATA letter) as [data|].
  - split; [done|]. split.
    + cbn. rewrite length_app, !length_map, !length_take. lia.
    + apply PhaseAwaiting; cbn; try done.
      * right. eauto.
      * destruct (take 3 sy) as [|? ?]; [destruct (take 3 wo)|]; cbn;
          [by right|left; lia|left; lia].
  - split; [done|]. split; [cbn; lia|].
    apply PhaseAwaiting; cbn; try done; [by left|by right].
Qed.

Lemma inv_step ls0 T (w : World) (e : Event) :
  isMount e = false → inv ls0 T w → inv ls0 T (step w e).
Proof.
  intros He Hinv. destruct e as [sy wo|data rect|data over env| |]; [done|..].
  - eapply session_inv_same; [|done]. apply handleDragStart_same.
  - by apply inv_DragEnd.
  - by apply inv_TimerFires.
  - eapply session_inv_same; [|done]. apply reannounce_same.
Qed.

Lemma inv_run ls0 T (es : list Event) (w : World) :
  mounted es → inv ls0 T w → inv ls0 T (runs w es).
Proof.
  revert w. induction es as [|e es IH]; intros w Hm Hinv; [done|].
  apply Forall_cons in Hm as [He Hm]. cbn. apply IH; [done|].
  by apply inv_step.
Qed.

(** Every world of a session is in one of the four phases. *)
Lemma session_invariant (ls : Storage) sy wo es :
  mounted es →
  inv ls (tasks (game (session' ls sy wo es))) (session' ls sy wo es).
Proof.
  intros Hm. unfold session. cbn [run fold_left].
  pose proof (inv_run ls _ es _ Hm (inv_Mount ls sy wo)) as Hinv.
  destruct Hinv as (Ht & Hrest). split; [done|].
  unfold run in Ht. by rewrite Ht.
Qed.

(** X9: in every session at most one failed step is counted per task: the
    failed-steps count never exceeds the number of tasks reached, nor the
    number of tasks, which is at most six. *)
Theorem session_failed_steps_bounded (ls : Storage) sy wo es :
  mounted es →
  let w := session' ls sy wo es in
  failedStepsCount (game w) ≤ currentTaskIndex (game w) + 1
  ∧ failedStepsCount (game w) ≤ length (tasks (game w))
  ∧ length (tasks (game w)) ≤ 6.
Proof.
  intros Hm w. destruct (session_invariant ls sy wo es Hm) as (_ & Hlen & Hph).
  fold w in Hlen, Hph. split; [|split; [|done]].
  - destruct Hph as [_ _ _ _ Hf _ _|pre c _ _ _ _ Hcl _ _|pre c _ _ _ _ Hcl _ _
                    |_ _ _ Hi Hf _ _ _]; try lia.
    + by eapply closure_final_count.
    + by eapply closure_final_count.
  - destruct Hph as [_ _ _ Hi Hf _ _|pre c _ _ _ _ Hcl _ _|pre c _ _ _ _ Hcl _ _
                    |_ _ _ Hi Hf _ _ _]; try lia.
    + pose proof (closure_final_count _ _ _ Hcl). destruct Hcl as (_&_&?&_). lia.
    + pose proof (closure_final_count _ _ _ Hcl). destruct Hcl as (_&_&?&_). lia.
Qed.

(** X10: nothing is written to the store before the game is finished, and
    once it is finished the store holds, under the letter, the stars of the
    failed-steps count over what was there at the start. *)
Theorem session_store (ls : Storage) sy wo es :
  mounted es →
  let w := session' ls sy wo es in
  if gameFinished (game w)
  then localStorage w
       = saveLetterScore letter (stars (failedStepsCount (game w))) ls
  else localStorage w = ls.
Proof.
  intros Hm w. destruct (session_invariant ls sy wo es Hm) as (_ & _ & Hph).
  fold w in Hph.
  destruct Hph as [Hg _ _ _ _ _ Hl|pre c Hg _ _ _ _ _ Hl|pre c Hg _ _ _ _ _ Hl
                  |Hg _ _ _ _ _ _ Hl]; by rewrite Hg.
Qed.

(** X11: when the game is finished every task has been completed, and the
    stars of the finish screen are those the overview then shows for the
    letter. *)
Theorem session_finished (ls : Storage) sy wo es :
  mounted es →
  let w := session' ls sy wo es in
  gameFinished (game w) = true →
  currentTaskIndex (game w) + 1 = length (tasks (game w))
  ∧ completedSteps (game w) = flags (length (tasks (game w)))
  ∧ finalStars (game w) = stars (failedStepsCount (game w))
  ∧ finishScreenStars (game w)
    = card_stars (letterCard (loadProgress (localStorage w)) letter).
Proof.
  intros Hm w Hfin. destruct (session_invariant ls sy wo es Hm) as (_ & _ & Hph).
  fold w in Hph.
  destruct Hph as [Hg|pre c Hg|pre c Hg|_ _ _ Hi _ Hc Hs Hl]; try congruence.
  repeat split; try done.
  unfold finishScreenStars, letterCard. rewrite Hl, Hs.
  rewrite loadProgress_saveLetterScore, decide_True by done. done.
Qed.


Lemma pendingFirings_fire (w : World) :
  pendingFirings (step w TimerFires) = pred (pendingFirings w).
Proof.
  cbn [dispatch]. unfold pendingFirings at 2.
  destruct (timers w) as [|[ms cb] rest] eqn:Htm.
  { unfold fireTimer. rewrite Htm. unfold pendingFirings. by rewrite Htm. }
  rewrite (fireTimer_cons letter w ms cb rest Htm). unfold pendingFirings.
  destruct cb as [t|c|c]; cbn [runCallback firings sum_list_with snd].
  - destruct (announceTask_fields t (mkWorld (game w) (localStorage w) rest (calls w)))
      as (_ & _ & ->). cbn. lia.
  - destruct (afterSpeak_fields c (mkWorld (game w) (localStorage w) rest (calls w)))
      as (-> & _). cbn [timers]. rewrite sum_list_with_app. cbn. lia.
  - destruct (decide (length (cl_tasks c) ≤ cl_currentTaskIndex c + 1)) as [Hl|Hn].
    + destruct (afterSound_finish_fields letter c
                  (mkWorld (game w) (localStorage w) rest (calls w)) Hl)
        as (_ & _ & _ & -> & _). cbn. lia.
    + destruct (afterSound_next_fields letter c
                  (mkWorld (game w) (localStorage w) rest (calls w)) ltac:(lia))
        as (_ & _ & _ & _ & -> & _). cbn. lia.
Qed.

Lemma init_timer_firings pre :
  init_timer pre → sum_list_with (λ t : nat * Callback, firings t.2) pre ≤ 1.
Proof. intros [->|(t & ->)]; cbn; lia. Qed.

Lemma inv_pendingFirings ls0 T (w : World) : inv ls0 T w → pendingFirings w ≤ 3.
Proof.
  intros (_ & _ & Hph). unfold pendingFirings.
  destruct Hph as [_ _ Hpre|pre c _ _ Hpre Hq|pre c _ _ Hpre Hq|_ _ Hpre];
    rewrite ?Hq, ?sum_list_with_app;
    pose proof (init_timer_firings _ Hpre); cbn; lia.
Qed.

Lemma pendingFirings_zero (w : World) : pendingFirings w = 0 → timers w = [].
Proof.
  unfold pendingFirings. destruct (timers w) as [|[ms cb] rest]; [done|].
  destruct cb; cbn; lia.
Qed.

(** X13: the lock is never stuck: from any moment of a session, once three
    timers have fired no timer is pending and the session either takes input
    or is finished. *)
Theorem session_timers_drain (ls : Storage) sy wo es :
  mounted es →
  let w := runs (session' ls sy wo es) [TimerFires; TimerFires; TimerFires] in
  timers w = []
  ∧ (awaitingInput (game w) = true ∨ gameFinished (game w) = true).
Proof.
  intros Hm w.
  pose proof (session_invariant ls sy wo es Hm) as Hinv.
  set (w0 := session' ls sy wo es) in *.
  set (T := tasks (game w0)) in *.
  assert (Hinv3 : inv ls T w).
  { apply inv_run; [|done]. unfold mounted. by repeat constructor. }
  assert (Htm : timers w = []).
  { apply pendingFirings_zero. unfold w. cbn [run fold_left].
    rewrite !pendingFirings_fire.
    pose proof (inv_pendingFirings _ _ _ Hinv). lia. }
  split; [done|]. destruct Hinv3 as (_ & _ & Hph).
  destruct Hph as [Hg Hp|pre c _ _ _ Hq|pre c _ _ _ Hq|Hg].
  - left. unfold awaitingInput. by rewrite Hg, Hp.
  - rewrite Htm in Hq. by destruct pre.
  - rewrite Htm in Hq. by destruct pre.
  - by right.
Qed.

(** X14: for a letter without data the session never starts: no task is set,
    and whatever gestures, timers and clicks follow, the session keeps taking
    input at task index 0 with no failed step, is never finished, and the
    store is left as it was. *)
Theorem session_without_data (ls : Storage) sy wo es :
  LEARNING_DATA letter = None →
  mounted es →
  let w := session' ls sy wo es in
  tasks (game w) = []
  ∧ awaitingInput (game w) = true
  ∧ currentTaskIndex (game w) = 0
  ∧ failedStepsCount (game w) = 0
  ∧ localStorage w = ls.
Proof.
  intros Hd Hm w.
  assert (HT : tasks (game (step (initialWorld ls) (Mount sy wo))) = []).
  { cbn [dispatch]. unfold initEffect, andThen. by rewrite Hd. }
  pose proof (inv_run ls _ es _ Hm (inv_Mount ls sy wo)) as (Ht & _ & Hph).
  rewrite HT in Ht, Hph.
  change (runs (step (initialWorld ls) (Mount sy wo)) es) with w in Ht, Hph.
  split; [done|].
  destruct Hph as [Hg Hp _ Hi Hf _ Hl|pre c _ _ _ _ Hcl|pre c _ _ _ _ Hcl
                  |_ _ _ Hi];
    [|destruct Hcl as (_ & _ & ? & _); simpl in *; lia..|simpl in Hi; lia].
  destruct Hi as [Hi|[_ Hi]]; [simpl in Hi; lia|].
  unfold awaitingInput. rewrite Hg, Hp. repeat split; try done. lia.
Qed.

End SessionRun.

Lemma mounted_full_session : mounted full_session_events.
Proof. apply (bool_decide_unpack _). vm_compute. exact I. Qed.

Lemma mounted_idle : mounted idle_events.
Proof. apply (bool_decide_unpack _). vm_compute. exact I. Qed.

Lemma mounted_match : mounted match_events.
Proof. apply (bool_decide_unpack _). vm_compute. exact I. Qed.

Lemma session_failed_steps_bounded_witness :
  let w := session 3 5 toLowerCase_ru LEARNING_DATA_A letter_A earlier_progress
             (syllables data_A) (words data_A) full_session_events in
  failedStepsCount (game w) ≤ currentTaskIndex (game w) + 1
  ∧ failedStepsCount (game w) ≤ length (tasks (game w))
  ∧ length (tasks (game w)) ≤ 6.
Proof.
  exact (session_failed_steps_bounded 3 5 toLowerCase_ru LEARNING_DATA_A letter_A
           earlier_progress (syllables data_A) (words data_A) full_session_events
           mounted_full_session).
Defined.

Lemma session_store_witness :
  let w := session 3 5 toLowerCase_ru LEARNING_DATA_A letter_A earlier_progress
             (syllables data_A) (words data_A) full_session_events in
  if gameFinished (game w)
  then localStorage w
       = saveLetterScore letter_A (stars (failedStepsCount (game w))) earlier_progress
  else localStorage w = earlier_progress.
Proof.
  exact (session_store 3 5 toLowerCase_ru LEARNING_DATA_A letter_A
           earlier_progress (syllables data_A) (words data_A) full_session_events
           mounted_full_session).
Defined.

Lemma full_session_finished :
  gameFinished
    (game (session 3 5 toLowerCase_ru LEARNING_DATA_A letter_A earlier_progress
             (syllables data_A) (words data_A) full_session_events)) = true.
Proof. by vm_compute. Qed.

Lemma session_finished_witness :
  let w := session 3 5 toLowerCase_ru LEARNING_DATA_A letter_A earlier_progress
             (syllables data_A) (words data_A) full_session_events in
  currentTaskIndex (game w) + 1 = length (tasks (game w))
  ∧ completedSteps (game w) = flags (length (tasks (game w)))
  ∧ finalStars (game w) = stars (failedStepsCount (game w))
  ∧ finishScreenStars (game w)
    = card_stars (letterCard (loadProgress (localStorage w)) letter_A).
Proof.
  exact (session_finished 3 5 toLowerCase_ru LEARNING_DATA_A letter_A
           earlier_progress (syllables data_A) (words data_A) full_session_events
           mounted_full_session full_session_finished).
Defined.



Lemma session_timers_drain_witness :
  let w := run 3 5 toLowerCase_ru LEARNING_DATA_A letter_A
             (session 3 5 toLowerCase_ru LEARNING_DATA_A letter_A None
                (syllables data_A) (words data_A) match_events)
             [TimerFires; TimerFires; TimerFires] in
  timers w = []
  ∧ (awaitingInput (game w) = true ∨ gameFinished (game w) = true).
Proof.
  exact (session_timers_drain 3 5 toLowerCase_ru LEARNING_DATA_A letter_A None
           (syllables data_A) (words data_A) match_events mounted_match).
Defined.

Lemma session_without_data_witness :
  let w := session 3 5 toLowerCase_ru LEARNING_DATA_A [CYR_O] earlier_progress
             [] [] idle_events in
  tasks (game w) = []
  ∧ awaitingInput (game w) = true
  ∧ currentTaskIndex (game w) = 0
  ∧ failedStepsCount (game w) = 0
  ∧ localStorage w = earlier_progress.
Proof.
  apply (session_without_data 3 5 toLowerCase_ru LEARNING_DATA_A [CYR_O]
           earlier_progress [] [] idle_events).
  - vm_compute. reflexivity.
  - exact mounted_idle.
Defined.

(** ** Any world, any events *)

Section AnyRun.

Variables GRID_ROWS GRID_COLS : nat.
Variable toLowerCase : jsstring → jsstring.
Variable LEARNING_DATA : jsstring → option LetterData.
Variable letter : jsstring.

Local Abbreviation step :=
  (dispatch GRID_ROWS GRID_COLS toLowerCase LEARNING_DATA letter).
Local Abbreviation runs :=
  (run GRID_ROWS GRID_COLS toLowerCase LEARNING_DATA letter).

Lemma initEffect_fields (w : World) sy wo :
  let w' := step w (Mount sy wo) in
  failedStepsCount (game w') = failedStepsCount (game w)
  ∧ gameFinished (game w') = gameFinished (game w)
  ∧ localStorage w' = localStorage w.
Proof.
  cbn [dispatch]. unfold initEffect, andThen.
  by destruct (LEARNING_DATA letter).
Qed.

Lemma handleDragEnd_failedStepsCount (w : World) data over env :
  failedStepsCount (game w)
  ≤ failedStepsCount (game (step w (DragEnd data over env))).
Proof.
  cbn [dispatch]. destruct (commits (game w) data over env) as [next|] eqn:Hc.
  - destruct (tasks (game w) !! currentTaskIndex (game w)) as [t|] eqn:Ht.
    + destruct (handleDragEnd_commit GRID_ROWS GRID_COLS toLowerCase w data over
                  env next t Hc Ht) as (_ & _ & _ & Hf & _).
      simpl in Hf. rewrite Hf. lia.
    + destruct (handleDragEnd_commit_no_task GRID_ROWS GRID_COLS toLowerCase w
                  data over env next Hc Ht) as (_ & _ & _ & Hf & _).
      simpl in Hf. rewrite Hf. lia.
  - destruct (handleDragEnd_no_commit GRID_ROWS GRID_COLS toLowerCase w data over
                env Hc) as (_ & _ & _ & Hf & _).
    simpl in Hf. rewrite Hf. lia.
Qed.

(** What the firing of a timer does to the counters and the store. *)
Lemma fireTimer_fields (w : World) :
  let w' := step w TimerFires in
  failedStepsCount (game w') = failedStepsCount (game w)
  ∧ (gameFinished (game w) = true → gameFinished (game w') = true)
  ∧ (localStorage w' = localStorage w
     ∨ ∃ n, localStorage w' = saveLetterScore letter (stars n) (localStorage w)).
Proof.
  cbn [dispatch]. destruct (timers w) as [|[ms cb] rest] eqn:Htm.
  { unfold fireTimer. rewrite Htm. auto. }
  rewrite (fireTimer_cons letter w ms cb rest Htm).
  destruct cb as [t|c|c]; cbn [runCallback].
  - destruct (announceTask_fields t (mkWorld (game w) (localStorage w) rest (calls w)))
      as (-> & -> & _). auto.
  - destruct (afterSpeak_fields c (mkWorld (game w) (localStorage w) rest (calls w)))
      as (_ & _ & _ & _ & -> & _ & -> & _ & _ & _ & ->). auto.
  - destruct (decide (length (cl_tasks c) ≤ cl_currentTaskIndex c + 1)) as [Hl|Hn].
    + destruct (afterSound_finish_fields letter c
                  (mkWorld (game w) (localStorage w) rest (calls w)) Hl)
        as (-> & _ & -> & _ & _ & _ & -> & _). eauto.
    + destruct (afterSound_next_fields letter c
                  (mkWorld (game w) (localStorage w) rest (calls w)) ltac:(lia))
        as (_ & _ & _ & _ & _ & -> & _ & -> & _ & -> & _). auto.
Qed.

Lemma step_fields (w : World) (e : Event) :
  let w' := step w e in
  failedStepsCount (game w) ≤ failedStepsCount (game w')
  ∧ (gameFinished (game w) = true → gameFinished (game w') = true)
  ∧ (localStorage w' = localStorage w
     ∨ ∃ n, localStorage w' = saveLetterScore letter (stars n) (localStorage w)).
Proof.
  destruct e as [sy wo|data rect|data over env| |].
  - destruct (initEffect_fields w sy wo) as (Hf & Hg & Hl).
    cbv zeta in *. rewrite Hf, Hg, Hl. auto.
  - destruct (handleDragStart_same GRID_ROWS GRID_COLS toLowerCase LEARNING_DATA
                letter w data rect) as ((_ & _ & Hf & _ & _ & Hg & _ & Hl & _) & _).
    cbv zeta. rewrite Hf, Hg, Hl. auto.
  - destruct (handleDragEnd_fields GRID_ROWS GRID_COLS toLowerCase LEARNING_DATA
                letter w data over env) as (_ & _ & _ & Hg & _ & Hl).
    cbv zeta in *. rewrite Hg, Hl.
    split; [apply handleDragEnd_failedStepsCount|auto].
  - destruct (fireTimer_fields w) as (Hf & Hg & Hl).
    cbv zeta in *. rewrite Hf. auto.
  - destruct (reannounce_same GRID_ROWS GRID_COLS toLowerCase LEARNING_DATA
                letter w) as (_ & _ & Hf & _ & _ & Hg & _ & Hl & _).
    cbv zeta. rewrite Hf, Hg, Hl. auto.
Qed.

Lemma stars_bound (n : nat) : stars n ≤ 3.
Proof. unfold stars. repeat case_decide; lia. Qed.

(** X15: whatever happens, the failed-steps count never goes down and a
    finished game stays finished. *)
Theorem run_monotone (w : World) (es : list Event) :
  failedStepsCount (game w) ≤ failedStepsCount (game (runs w es))
  ∧ (gameFinished (game w) = true → gameFinished (game (runs w es)) = true).
Proof.
  revert w. unfold run. induction es as [|e es IH]; intros w; [done|].
  cbn [fold_left]. destruct (step_fields w e) as (Hf & Hg & _).
  destruct (IH (step w e)) as (Hf' & Hg'). split; [lia|auto].
Qed.

(** X16: the component writes only under its own letter: whatever happens,
    the entry of every other letter reads as before. *)
Theorem run_store_other_letters (w : World) (es : list Event) (l : jsstring) :
  l ≠ letter →
  loadProgress (localStorage (runs w es)) !! l = loadProgress (localStorage w) !! l.
Proof.
  intros Hl. revert w. unfold run. induction es as [|e es IH]; intros w; [done|].
  cbn [fold_left]. rewrite IH. destruct (step_fields w e) as (_ & _ & [-> | (n & ->)]); [done|].
  rewrite loadProgress_saveLetterScore. by rewrite decide_False.
Qed.

(** X17: ratings stay ratings: when no stored entry exceeds three stars,
    none does after any events. *)
Theorem run_store_ratings (w : World) (es : list Event) :
  (∀ l n, loadProgress (localStorage w) !! l = Some n → n ≤ 3) →
  ∀ l n, loadProgress (localStorage (runs w es)) !! l = Some n → n ≤ 3.
Proof.
  revert w. unfold run. induction es as [|e es IH]; intros w Hw; [done|].
  cbn [fold_left]. apply IH. intros l n.
  destruct (step_fields w e) as (_ & _ & [-> | (k & ->)]); [apply Hw|].
  rewrite loadProgress_saveLetterScore. case_decide; [|apply Hw].
  intros [= <-]. apply stars_bound.
Qed.

(** X18: when a drag end completes a task that is not the last one, the two
    timers of the choreography bring the session back to taking input on the
    next task, with an empty grid, a move count of zero, the flag of the
    completed task set, the failure of the step counted and the store
    untouched. *)
Theorem task_round_advances (w : World) data over env t :
  timers w = [] →
  awaitingInput (game w) = true →
  tasks (game w) !! currentTaskIndex (game w) = Some t →
  currentTaskIndex (game w) + 1 < length (tasks (game w)) →
  isProcessingSuccess (game (step w (DragEnd data over env))) = true →
  let w' := runs w [DragEnd data over env; TimerFires; TimerFires] in
  awaitingInput (game w') = true
  ∧ currentTaskIndex (game w') = currentTaskIndex (game w) + 1
  ∧ gridState (game w') = ∅
  ∧ moveCount (game w') = 0
  ∧ failedStepsCount (game w')
    = failedStepsCount (game w) + (if isFailedStep (game w) t then 1 else 0)
  ∧ completedSteps (game w')
    = arraySet (currentTaskIndex (game w)) true (completedSteps (game w))
  ∧ localStorage w' = localStorage w
  ∧ timers w' = [].
Proof.
  intros Htm Ha Ht Hnext Hlock. cbn [dispatch] in Hlock.
  destruct (awaitingInput_unlocked _ Ha) as [Hu Hg].
  destruct (commits (game w) data over env) as [next|] eqn:Hc.
  2: { destruct (handleDragEnd_no_commit GRID_ROWS GRID_COLS toLowerCase w data over
                   env Hc) as (_ & _ & Hp & _). congruence. }
  destruct (handleDragEnd_commit GRID_ROWS GRID_COLS toLowerCase w data over env
              next t Hc Ht)
    as (_ & _ & Hp & Hfsc & _ & Htm1 & Hta1 & Hi1 & Hc1 & Hg1 & Hls1).
  rewrite Hp in Hlock. rewrite Hlock in Htm1, Hfsc. rewrite Htm in Htm1.
  cbn [app andb] in Htm1, Hfsc.
  cbn [run fold_left dispatch].
  set (w1 := handleDragEnd GRID_ROWS GRID_COLS toLowerCase (game w) data over env w)
    in *.
  set (c := mkSuccessClosure (tasks (game w)) (currentTaskIndex (game w))
              (failedStepsCount (game w)) (isFailedStep (game w) t)) in *.
  rewrite (fireTimer_cons letter w1 _ _ _ Htm1). cbn [runCallback].
  destruct (afterSpeak_fields c (mkWorld (game w1) (localStorage w1) [] (calls w1)))
    as (Htm2 & Hc2 & _ & _ & Hf2 & _ & Hg2 & _ & _ & _ & Hls2).
  cbn [game localStorage timers calls app] in Htm2, Hc2, Hf2, Hg2, Hls2.
  set (w2 := afterSpeak c (mkWorld (game w1) (localStorage w1) [] (calls w1))) in *.
  rewrite (fireTimer_cons letter w2 _ _ _ Htm2). cbn [runCallback].
  destruct (afterSound_next_fields letter c
              (mkWorld (game w2) (localStorage w2) [] (calls w2)) Hnext)
    as (Hgr & Hm & Hi3 & Hp3 & Htm3 & Hls3 & _ & Hf3 & Hc3 & Hg3 & _).
  cbn [game localStorage timers calls] in Hgr, Hm, Hi3, Hp3, Htm3, Hls3, Hf3, Hc3, Hg3.
  unfold awaitingInput. rewrite Hg3, Hp3, Hi3, Hgr, Hm, Hf3, Hc3, Hls3, Htm3.
  rewrite Hg2, Hf2, Hc2, Hls2. rewrite Hg1, Hfsc, Hc1, Hls1.
  repeat split; done.
Qed.

End AnyRun.

Lemma run_store_other_letters_witness :
  loadProgress
    (localStorage (run 3 5 toLowerCase_ru LEARNING_DATA_A letter_A
                     (started earlier_progress) six_failed_rounds)) !! [CYR_O]
  = loadProgress (localStorage (started earlier_progress)) !! [CYR_O].
Proof.
  apply (run_store_other_letters 3 5 toLowerCase_ru LEARNING_DATA_A letter_A
           (started earlier_progress) six_failed_rounds [CYR_O]).
  discriminate.
Defined.

Lemma earlier_progress_ratings (l : jsstring) (n : nat) :
  loadProgress (localStorage (started earlier_progress)) !! l = Some n → n ≤ 3.
Proof.
  change (localStorage (started earlier_progress)) with earlier_progress.
  unfold earlier_progress. simpl. intros H.
  apply lookup_insert_Some in H as [[_ <-]|[_ H]]; [lia|].
  apply lookup_insert_Some in H as [[_ <-]|[_ H]]; [lia|].
  by rewrite lookup_empty in H.
Qed.

Lemma run_store_ratings_witness :
  (∀ l n, loadProgress (localStorage (started earlier_progress)) !! l = Some n →
          n ≤ 3)
  ∧ (∀ l n,
       loadProgress
         (localStorage (run 3 5 toLowerCase_ru LEARNING_DATA_A letter_A
                          (started earlier_progress) six_failed_rounds)) !! l
       = Some n →
       n ≤ 3).
Proof.
  split; [exact earlier_progress_ratings|].
  exact (run_store_ratings 3 5 toLowerCase_ru LEARNING_DATA_A letter_A
           (started earlier_progress) six_failed_rounds earlier_progress_ratings).
Defined.

(** The syllable "а-м" lacks its last letter after five stray tiles. *)
Lemma task_round_advances_witness :
  let w := play (started None) (stray 5 0 ++ spell [cyr_a] 5) in
  let w' := run 3 5 toLowerCase_ru LEARNING_DATA_A letter_A w
              [put cyr_m 1 6; TimerFires; TimerFires] in
  awaitingInput (game w') = true
  ∧ currentTaskIndex (game w') = currentTaskIndex (game w) + 1
  ∧ gridState (game w') = ∅
  ∧ moveCount (game w') = 0
  ∧ failedStepsCount (game w')
    = failedStepsCount (game w)
      + (if isFailedStep (game w) (mkTask [cyr_a; DASH; cyr_m] Syllable)
         then 1 else 0)
  ∧ completedSteps (game w')
    = arraySet (currentTaskIndex (game w)) true (completedSteps (game w))
  ∧ localStorage w' = localStorage w
  ∧ timers w' = [].
Proof.
  apply (task_round_advances 3 5 toLowerCase_ru LEARNING_DATA_A letter_A
           (play (started None) (stray 5 0 ++ spell [cyr_a] 5))
           (key cyr_m) (cell 1) (clock 6) (mkTask [cyr_a; DASH; cyr_m] Syllable)).
  - vm_compute. reflexivity.
  - vm_compute. reflexivity.
  - vm_compute. reflexivity.
  - vm_compute. lia.
  - vm_compute. reflexivity.
Defined.

(** ** The letter overview *)

(** X19: a card shows as many filled stars as the stored score, three at
    most, filled ones first; a letter counts as played as soon as it has an
    entry, also one of zero stars, and a letter without entry shows none. *)
Theorem letterCard_stars (progress : UserProgress) (char : jsstring) :
  let k := default 0 (progress !! char) `min` 3 in
  card_stars (letterCard progress char)
  = replicate k true ++ replicate (3 - k) false
  ∧ card_hasPlayed (letterCard progress char)
    = bool_decide (is_Some (progress !! char))
  ∧ card_char (letterCard progress char) = char.
Proof.
  unfold letterCard. destruct (progress !! char) as [n|]; simpl.
  - split; [|split; [|done]].
    + destruct n as [|[|[|n]]]; try reflexivity.
      rewrite !bool_decide_eq_true_2 by lia.
      by replace (S (S (S n)) `min` 3) with 3 by lia.
    + done.
  - done.
Qed.

Lemma overview_blank (s : LearningState) :
  progress s = ∅ →
  Forall (λ c, card_hasPlayed c = false ∧ card_stars c = [false; false; false])
         (overview s).
Proof.
  intros Hp. unfold overview. rewrite Hp. apply Forall_map, Forall_forall.
  intros char _. unfold letterCard. simpl. by rewrite lookup_empty.
Qed.

(** X20: a confirmed reset empties what the overview shows and what the
    store reads, so that every card is unplayed and without stars at once and
    again after the page has reloaded; a declined reset changes nothing. *)
Theorem handleReset_blank (w : LearningWorld) :
  let w' := handleReset true w in
  loadProgress (learningStorage w') = ∅
  ∧ reloadScheduled w' = true
  ∧ Forall (λ c, card_hasPlayed c = false ∧ card_stars c = [false; false; false])
           (overview (learning w'))
  ∧ Forall (λ c, card_hasPlayed c = false ∧ card_stars c = [false; false; false])
           (overview (learning
                        (learningMount (initialLearningWorld (learningStorage w')))))
  ∧ handleReset false w = w.
Proof.
  repeat split; by apply overview_blank.
Qed.

(** ** The application shell *)

Lemma appDispatch_selected (s : AppState) (e : AppEvent) :
  (∀ u r, selectedLetter s = Some (u :: r) → mode s = ModeLearning) →
  ∀ u r, selectedLetter (appDispatch s e) = Some (u :: r) →
         mode (appDispatch s e) = ModeLearning.
Proof.
  intros Hs. unfold appDispatch, appScreen.
  destruct (selectedLetter s) as [[|u0 r0]|] eqn:Hsel;
    destruct (mode s) eqn:Hm; destruct e; simpl; rewrite ?Hsel;
    try done; intros u r Hu; try (by apply (Hs u r)).
  all: by pose proof (Hs u0 r0 eq_refl).
Qed.

Lemma appRun_selected (es : list AppEvent) (s : AppState) :
  (∀ u r, selectedLetter s = Some (u :: r) → mode s = ModeLearning) →
  ∀ u r, selectedLetter (appRun s es) = Some (u :: r) →
         mode (appRun s es) = ModeLearning.
Proof.
  revert s. unfold appRun. induction es as [|e es IH]; intros s Hs; [done|].
  cbn [fold_left]. apply IH. by apply appDispatch_selected.
Qed.

(** X21: from the start of the application and after any clicks, the back
    button leads one level up: from the game to the letter overview, from
    the overview or the free play to the menu; the game is shown exactly
    when a non-empty letter is selected, and only over the learning mode. *)
Theorem app_back_one_level (es : list AppEvent) :
  let s := appRun initialAppState es in
  match appScreen s with
  | ScreenLearningGame l =>
      selectedLetter s = Some l ∧ mode s = ModeLearning
      ∧ appScreen (appDispatch s ClickBack) = ScreenLearning
  | ScreenLearning | ScreenFreePlay => appScreen (appDispatch s ClickBack) = ScreenMenu
  | ScreenMenu => appDispatch s ClickBack = s
  end.
Proof.
  intros s.
  assert (Hs : ∀ u r, selectedLetter s = Some (u :: r) → mode s = ModeLearning).
  { apply appRun_selected. done. }
  clearbody s. unfold appDispatch, appScreen, backToMenu, handleBackToLearning.
  destruct s as [m [[|u r]|] cs]; simpl in *; destruct m; try done.
  all: by pose proof (Hs u r eq_refl).
Qed.

(** ** Voices and utterances *)

Lemma ru_RU_starts_with_ru (v : Voice) :
  bool_decide (voice_lang v = lit "ru-RU") = true →
  startsWith (lit "ru") (voice_lang v) = true.
Proof. intros H%bool_decide_eq_true_1. by rewrite H. Qed.

(** X22: the voice set on an utterance is one of the known voices and its
    language begins with "ru"; it is a voice of language "ru-RU" whenever
    there is one, wherever it stands in the list; and no voice is set
    exactly when no known voice has a language beginning with "ru". *)
Theorem ruVoice_choice (voices : list Voice) :
  (∀ v, ruVoice voices = Some v →
        In v voices ∧ startsWith (lit "ru") (voice_lang v) = true)
  ∧ ((∃ v, In v voices ∧ voice_lang v = lit "ru-RU") →
     ∃ v, ruVoice voices = Some v ∧ voice_lang v = lit "ru-RU")
  ∧ (ruVoice voices = None ↔
     ∀ v, In v voices → startsWith (lit "ru") (voice_lang v) = false).
Proof.
  unfold ruVoice. split; [|split].
  - intros v.
    destruct (find (λ v, bool_decide (voice_lang v = lit "ru-RU")) voices)
      as [v0|] eqn:Hf.
    + intros [= <-]. apply find_some in Hf as [Hin Hl].
      split; [done|]. by apply ru_RU_starts_with_ru.
    + intros Hf2. by apply find_some in Hf2.
  - intros (v & Hin & Hl).
    destruct (find (λ v, bool_decide (voice_lang v = lit "ru-RU")) voices)
      as [v0|] eqn:Hf.
    + exists v0. split; [done|]. apply find_some in Hf as [_ Hl0].
      by apply bool_decide_eq_true_1 in Hl0.
    + pose proof (find_none _ _ Hf v Hin) as Hn. simpl in Hn.
      by rewrite bool_decide_eq_true_2 in Hn.
  - destruct (find (λ v, bool_decide (voice_lang v = lit "ru-RU")) voices)
      as [v0|] eqn:Hf.
    + split; [done|]. intros Hall. apply find_some in Hf as [Hin Hl].
      apply ru_RU_starts_with_ru in Hl. rewrite (Hall v0 Hin) in Hl. done.
    + split.
      * intros Hn v Hin. apply (find_none _ _ Hn v Hin).
      * intros Hall.
        destruct (find (λ v, startsWith (lit "ru") (voice_lang v)) voices)
          as [v1|] eqn:Hf1; [|done].
        apply find_some in Hf1 as [Hin Hl]. rewrite (Hall v1 Hin) in Hl. done.
Qed.

Section AudioProps.

Variable toLowerCase : jsstring → jsstring.

Local Abbreviation adispatch := (audioDispatch toLowerCase).
Local Abbreviation arun := (audioRun toLowerCase).

Lemma audioDispatch_voices (a : AudioState) (e : AudioEvent) :
  voices a ≠ [] → voices (adispatch a e) ≠ [].
Proof.
  intros Hv. destruct e as [av vs|vs|av vs text| |]; simpl; try done.
  - unfold audioInitVoices. destruct av; [|done]. by destruct vs.
  - by destruct vs.
  - unfold audioSpeakText. destruct av; [|done]. simpl. by destruct (voices a).
Qed.

(** X23: the voice cache, once it holds voices, is never emptied: not by a
    later [initVoices] or voices-changed event that finds no voice, and
    [speakText] asks the synthesiser for voices only while the cache is
    empty, leaving a filled cache as it is. *)
Theorem voices_cache_kept (a : AudioState) (es : list AudioEvent) :
  voices a ≠ [] →
  voices (arun a es) ≠ []
  ∧ ∀ available getVoices text,
      voices (audioSpeakText toLowerCase available getVoices text a) = voices a.
Proof.
  intros Hv. split.
  - revert a Hv. unfold audioRun. induction es as [|e es IH]; intros a Hv; [done|].
    cbn [fold_left]. apply IH. by apply audioDispatch_voices.
  - intros av vs text. unfold audioSpeakText. destruct av; [|done]. simpl.
    by destruct (voices a).
Qed.

Lemma spoken_app (us vs : list Utterance) : spoken (us ++ vs) = spoken us ++ spoken vs.
Proof. induction us as [|u us IH]; [done|]. simpl. by rewrite IH. Qed.

Lemma audioDispatch_spoken (a : AudioState) (e : AudioEvent) (us : list Utterance) :
  synthCalls a = spoken us →
  Forall (λ u, utterance_lang u = lit "ru-RU") us →
  (currentUtterance a = None ∨ currentUtterance a = last us) →
  ∃ us', synthCalls (adispatch a e) = spoken us'
         ∧ Forall (λ u, utterance_lang u = lit "ru-RU") us'
         ∧ (currentUtterance (adispatch a e) = None
            ∨ currentUtterance (adispatch a e) = last us').
Proof.
  intros Hc Hl Hu. destruct e as [av vs|vs|av vs text| |]; simpl.
  - exists us. unfold audioInitVoices. destruct av; [|done]. by destruct vs.
  - exists us. by destruct vs.
  - unfold audioSpeakText. destruct av; [|by exists us]. simpl.
    eexists (us ++ [_]). rewrite spoken_app, Hc. split; [done|]. split.
    + apply Forall_app. split; [done|]. by repeat constructor.
    + right. by rewrite last_snoc.
  - exists us. split; [done|]. split; [done|by left].
  - exists us. split; [done|]. split; [done|by left].
Qed.

(** X24: [speakText] never speaks without a cancel just before: the calls
    made on the synthesiser are, for the utterances spoken so far, a cancel
    and a speak each, in order; every utterance carries the language
    "ru-RU"; and [currentUtterance] is empty or holds the last one spoken. *)
Theorem speak_after_cancel (es : list AudioEvent) :
  let a := arun initialAudioState es in
  ∃ us, synthCalls a = spoken us
        ∧ Forall (λ u, utterance_lang u = lit "ru-RU") us
        ∧ (currentUtterance a = None ∨ currentUtterance a = last us).
Proof.
  cbv zeta. unfold audioRun.
  assert (H : ∀ a : AudioState,
             (∃ us, synthCalls a = spoken us
                    ∧ Forall (λ u, utterance_lang u = lit "ru-RU") us
                    ∧ (currentUtterance a = None ∨ currentUtterance a = last us)) →
             ∃ us, synthCalls (fold_left adispatch es a) = spoken us
                   ∧ Forall (λ u, utterance_lang u = lit "ru-RU") us
                   ∧ (currentUtterance (fold_left adispatch es a) = None
                      ∨ currentUtterance (fold_left adispatch es a) = last us)).
  { induction es as [|e es IH]; intros a Ha; [done|].
    cbn [fold_left]. apply IH. destruct Ha as (us & Hc & Hl & Hu).
    by apply (audioDispatch_spoken a e us). }
  apply H. exists []. split; [done|]. split; [done|by left].
Qed.

End AudioProps.

Lemma voices_cache_kept_witness :
  voices (audioRun toLowerCase_ru one_voice
            [AudioInit true []; VoicesChanged [];
             AudioSpeak true [] [CYR_A]; UtteranceEnd]) ≠ []
  ∧ ∀ available getVoices text,
      voices (audioSpeakText toLowerCase_ru available getVoices text one_voice)
      = voices one_voice.
Proof.
  apply (voices_cache_kept toLowerCase_ru one_voice). discriminate.
Defined.

(** ** More on initialisation, the detector and the drop logic *)

(** X25: whatever the size of the candidate lists, the tasks are the first
    three shuffled syllables followed by the first three shuffled words: a
    letter with fewer than three of either gets a shorter session, of
    [min 3] of the syllables plus [min 3] of the words, every task taken from
    the letter's data under its own kind. *)
Theorem initEffect_tasks LEARNING_DATA letter data sy wo (w : World) :
  LEARNING_DATA letter = Some data →
  shuffle_result (syllables data) sy →
  shuffle_result (words data) wo →
  let T := tasks (game (initEffect LEARNING_DATA letter sy wo w)) in
  T = map (λ t, mkTask t Syllable) (take 3 sy) ++ map (λ t, mkTask t Word) (take 3 wo)
  ∧ length T = length (syllables data) `min` 3 + length (words data) `min` 3
  ∧ ∀ t, t ∈ T →
         match type t with
         | Syllable => text t ∈ syllables data
         | Word => text t ∈ words data
         end.
Proof.
  intros Hd Hsy Hwo. unfold initEffect, andThen. rewrite Hd. cbn.
  unfold shuffle_result in *. split; [done|]. split.
  - rewrite length_app, !length_map, !length_take, Hsy, Hwo. lia.
  - intros t Ht. apply elem_of_app in Ht as [Ht|Ht];
      apply list_elem_of_fmap in Ht as (x & -> & Hx); simpl;
      apply elem_of_take in Hx as (i & Hx & _);
      apply list_elem_of_lookup_2 in Hx.
    + by rewrite Hsy.
    + by rewrite Hwo.
Qed.

Lemma initEffect_tasks_witness :
  let T := tasks (game (initEffect LEARNING_DATA_A letter_A
                          [[cyr_a; DASH; cyr_s]; [cyr_a; DASH; cyr_m];
                           [cyr_m; DASH; cyr_a]]
                          (words data_A) (initialWorld None))) in
  T = map (λ t, mkTask t Syllable)
          (take 3 [[cyr_a; DASH; cyr_s]; [cyr_a; DASH; cyr_m]; [cyr_m; DASH; cyr_a]])
      ++ map (λ t, mkTask t Word) (take 3 (words data_A))
  ∧ length T = length (syllables data_A) `min` 3 + length (words data_A) `min` 3
  ∧ ∀ t, t ∈ T →
         match type t with
         | Syllable => text t ∈ syllables data_A
         | Word => text t ∈ words data_A
         end.
Proof.
  apply (initEffect_tasks LEARNING_DATA_A letter_A data_A).
  - reflexivity.
  - exact data_A_shuffle.
  - reflexivity.
Defined.

Lemma rowChars_lookup cols toLowerCase (g : GridState) r c :
  c < cols →
  rowChars cols toLowerCase g r !! c = Some (cellText toLowerCase g (r * cols + c)).
Proof.
  intros Hc. unfold rowChars. change map with (@fmap list _).
  rewrite list_lookup_fmap, lookup_seq_lt by done. done.
Qed.

Lemma matchAt_cells cols toLowerCase (g : GridState) r (t : jsstring) i :
  i + length t ≤ cols →
  matchAt (rowChars cols toLowerCase g r) t i = true ↔
  ∀ j u, t !! j = Some u → cellText toLowerCase g (r * cols + (i + j)) = [u].
Proof.
  intros Hi. unfold matchAt. rewrite forallb_forall. split.
  - intros H j u Hj. pose proof (lookup_lt_Some _ _ _ Hj) as Hlt.
    assert (Hin : In j (seq 0 (length t))) by (apply in_seq; lia).
    apply H, bool_decide_eq_true_1 in Hin.
    rewrite rowChars_lookup, Hj in Hin by lia. by injection Hin.
  - intros H j Hj. apply in_seq in Hj. apply bool_decide_eq_true_2.
    destruct (lookup_lt_is_Some_2 t j ltac:(lia)) as [u Hu].
    rewrite rowChars_lookup, Hu by lia. simpl. f_equal. by apply H.
Qed.

(** X26: on any grid, whatever its tiles hold, the detector answers [true]
    exactly when some row has, somewhere within it, consecutive cells that
    read the clean target unit by unit, a tile reading as its lowercased
    character and an empty cell as a blank. *)
Theorem checkGridForWord_cells rows cols toLowerCase (g : GridState) W :
  checkGridForWord rows cols toLowerCase g W = true ↔
  ∃ r i, r < rows ∧ i + length (cleanTarget toLowerCase W) ≤ cols
         ∧ ∀ j u, cleanTarget toLowerCase W !! j = Some u →
                  cellText toLowerCase g (r * cols + (i + j)) = [u].
Proof.
  rewrite checkGridForWord_rows. unfold scanRow. split.
  - intros (r & Hr & Hs). rewrite rowChars_length in Hs.
    case_decide as Hlen; [|done].
    apply existsb_exists in Hs as (i & Hi & Hm). apply in_seq in Hi.
    exists r, i. split; [done|]. split; [lia|].
    apply matchAt_cells; [lia|done].
  - intros (r & i & Hr & Hi & Hc). exists r. split; [done|].
    rewrite rowChars_length. rewrite decide_True by lia.
    apply existsb_exists. exists i. split; [apply in_seq; lia|].
    by apply matchAt_cells.
Qed.

Lemma transpose_back i j k : transpose i j (transpose j i k) = k.
Proof. unfold transpose. repeat case_decide; congruence. Qed.

(** X27: a grid tile moved to another cell and then back again leaves the
    grid exactly as it was, ids included, whether or not the other cell held
    a tile. *)
Theorem move_there_and_back (g : GridState) i j A data o_j o_i env env' :
  payload_of g i A data → is_cell o_j j → is_cell o_i i → i ≠ j →
  let next := (dropLogic g data o_j env).1 in
  let back := mkDragData OriginGrid (item_char A) (Some (item_id A)) (Some j) in
  next !! j = Some A ∧ (dropLogic next back o_i env').1 = g.
Proof.
  intros Hp Hj Hi Hij next back.
  destruct (dropLogic_grid_to_cell g i A data o_j j env Hp Hj Hij) as (n1 & Hd1 & Hn1).
  unfold next. rewrite Hd1. simpl.
  assert (Hnj : n1 !! j = Some A).
  { rewrite Hn1. unfold transpose. rewrite decide_False by done.
    rewrite decide_True by done. by destruct Hp. }
  split; [done|].
  assert (Hp2 : payload_of n1 j A back).
  { split; [done|]. split; [by destruct Hp as (_ & ? & _)|done]. }
  destruct (dropLogic_grid_to_cell n1 j A back o_i i env' Hp2 Hi ltac:(done))
    as (n2 & Hd2 & Hn2).
  rewrite Hd2. simpl. apply map_eq. intros k.
  by rewrite Hn2, Hn1, transpose_back.
Qed.

Lemma move_there_and_back_witness :
  let g := gridState (game w_two_tiles) in
  let data := mkDragData OriginGrid (item_char tile_k) (Some (item_id tile_k)) (Some 0) in
  let next := (dropLogic g data (DroppableCell 7) (clock 3)).1 in
  let back := mkDragData OriginGrid (item_char tile_k) (Some (item_id tile_k)) (Some 7) in
  next !! 7 = Some tile_k
  ∧ (dropLogic next back (DroppableCell 0) (clock 4)).1 = g.
Proof.
  apply (move_there_and_back (gridState (game w_two_tiles)) 0 7 tile_k).
  - split; [vm_compute; reflexivity|]. split; [discriminate|reflexivity].
  - apply DroppableCell_is_cell.
  - apply DroppableCell_is_cell.
  - lia.
Defined.

Section UniqueIds.

Variables GRID_ROWS GRID_COLS : nat.
Variable toLowerCase : jsstring → jsstring.
Variable LEARNING_DATA : jsstring → option LetterData.
Variable letter : jsstring.

Local Abbreviation step :=
  (dispatch GRID_ROWS GRID_COLS toLowerCase LEARNING_DATA letter).
Local Abbreviation runs :=
  (run GRID_ROWS GRID_COLS toLowerCase LEARNING_DATA letter).




End UniqueIds.

